(** * GraphWave structural node embeddings

    A shallow embedding of [stellargraph/mapper/graphwave_generator.py]:
    the constructor of [GraphWaveGenerator], its [flow] method and the helper
    [_empirical_characteristic_function], together with the numpy / scipy /
    tensorflow primitives they call.

    Conventions of the embedding.
    - Floating-point scalars ([np.float32], [np.float64]) are idealised as the
      real numbers [R] of the Standard Library: rounding, NaN and infinities
      are outside the model, and [astype(np.float32)] is the identity.
    - n-dimensional arrays are nested lists in row-major order: a vector is
      [list R], a matrix a list of rows, a rank-3 tensor a list of matrices.
      Sparse matrices are represented by their dense contents.
    - Python exceptions are values of [exn]; code that may raise returns a
      [result] and is sequenced in the error monad.
    - A [tf.data.Dataset] is the finite list of elements of one pass together
      with a flag telling whether the pass is repeated for ever; the integers
      it is given (batch size, number of parallel calls) are checked when the
      dataset is built, as in eager execution. *)

From Stdlib Require Import String Reals ZArith List Bool Arith Lia Lra.
From Stdlib Require Import Permutation DecimalString.
Import ListNotations.

Set Implicit Arguments.

(** ** Exceptions and the error monad *)

Inductive exn_class : Set :=
| TypeError
| ValueError
| IndexError
| KeyError
| InvalidArgumentError
| ArpackError.

Record exn : Set := Raise { exn_kind : exn_class; exn_msg : string }.

(** Python's [LookupError] is the common base class of [IndexError] and
    [KeyError]. *)
Definition is_LookupError (e : exn) : bool :=
  match exn_kind e with
  | IndexError | KeyError => true
  | _ => false
  end.

Inductive result (A : Type) : Type :=
| Ok (a : A)
| Err (e : exn).

Arguments Ok {A} a.
Arguments Err {A} e.

Definition bind {A B : Type} (c : result A) (k : A -> result B) : result B :=
  match c with
  | Ok a => k a
  | Err e => Err e
  end.

Notation "x <- c ;; k" := (bind c (fun x => k))
  (at level 61, c at next level, right associativity).
Notation "' p <- c ;; k" := (bind c (fun p => k))
  (at level 61, p pattern, c at next level, right associativity).

Definition raises {A : Type} (c : result A) : Prop := exists e, c = Err e.

Fixpoint mapM {A B : Type} (f : A -> result B) (l : list A) : result (list B) :=
  match l with
  | [] => Ok []
  | a :: l' => b <- f a ;; bs <- mapM f l' ;; Ok (b :: bs)
  end.

(** ** Arrays *)

Abbreviation vector := (list R) (only parsing).
Abbreviation matrix := (list (list R)) (only parsing).
Abbreviation tensor3 := (list (list (list R))) (only parsing).

(** [M] has [n] rows of [k] entries each. *)
Definition shape2 {A : Type} (n k : nat) (M : list (list A)) : Prop :=
  length M = n /\ Forall (fun r => length r = k) M.

(** [T] has shape [(n, k, s)]. *)
Definition shape3 {A : Type} (n k s : nat) (T : list (list (list A))) : Prop :=
  length T = n /\ Forall (shape2 k s) T.

Definition entry (M : matrix) (i j : nat) : R := nth j (nth i M []) 0%R.

Definition entry3 (T : tensor3) (i j k : nat) : R :=
  nth k (nth j (nth i T []) []) 0%R.

Definition ncols {A : Type} (M : list (list A)) : nat := length (hd [] M).

Fixpoint zip_with {A B C : Type} (f : A -> B -> C) (la : list A) (lb : list B)
  : list C :=
  match la, lb with
  | a :: la', b :: lb' => f a b :: zip_with f la' lb'
  | _, _ => []
  end.

(** ** numpy and scipy primitives *)

Module Np.
Local Open Scope R_scope.

(** [a.sum()] for a vector. *)
Definition sum (v : vector) : R := fold_right Rplus 0 v.

(** [a.sum(1)]: the sums of the rows of a matrix. *)
Definition sum_axis1 (M : matrix) : vector := map sum M.

(** [scipy.sparse.diags(v)] and [np.diag(v)]: the square matrix with [v] on
    its main diagonal. *)
Definition diag (v : vector) : matrix :=
  map (fun i => map (fun j => if Nat.eqb i j then nth i v 0 else 0)
                    (seq 0 (length v)))
      (seq 0 (length v)).

(** Entrywise difference [A - B]. *)
Definition sub (A B : matrix) : matrix := zip_with (zip_with Rminus) A B.

(** The test [x > 0] of a boolean mask. *)
Definition gt0 (x : R) : bool := if Rlt_dec 0 x then true else false.

(** [a.min()]: numpy refuses to reduce an empty array. *)
Definition zero_size_minimum : exn :=
  Raise ValueError
    "zero-size array to reduction operation minimum which has no identity".

Definition min (v : vector) : result R :=
  match v with
  | [] => Err zero_size_minimum
  | x :: xs => Ok (fold_left Rmin xs x)
  end.

(** [a.max()]. *)
Definition max (v : vector) : result R :=
  match v with
  | [] => Err (Raise ValueError
      "zero-size array to reduction operation maximum which has no identity")
  | x :: xs => Ok (fold_left Rmax xs x)
  end.

(** [np.linspace(start, stop, num)] with the default [endpoint=True]:
    [arange(num)] is scaled by the step (by [delta] when there is a single
    sample), shifted by [start], and, when there are at least two samples,
    the last one is overwritten with [stop]. *)
Definition linspace (start stop : R) (num : Z) : result vector :=
  if (num <? 0)%Z then
    Err (Raise ValueError
           ("Number of samples, " ++ NilZero.string_of_int (Z.to_int num)
            ++ ", must be non-negative.")%string)
  else
    let n := Z.to_nat num in
    let div := (n - 1)%nat in
    let delta := stop - start in
    let y := map INR (seq 0 n) in
    let y :=
      if (0 <? div)%nat then
        let step := delta / INR div in
        if Req_dec_T step 0
        then map (fun v => v / INR div * delta) y
        else map (fun v => v * step) y
      else map (fun v => v * delta) y in
    let y := map (fun v => v + start) y in
    Ok (if (1 <? n)%nat then removelast y ++ [stop] else y).

(** [A.dot(B)] for two matrices; the inner dimensions have to agree. *)
Definition column (j : nat) (B : matrix) : vector :=
  map (fun r => nth j r 0) B.

Definition inner (u v : vector) : R := sum (zip_with Rmult u v).

Definition dot (A B : matrix) : result matrix :=
  if forallb (fun r => Nat.eqb (length r) (length B)) A then
    Ok (map (fun r => map (fun j => inner r (column j B)) (seq 0 (ncols B))) A)
  else
    Err (Raise ValueError "shapes not aligned").

(** [np.dstack(Ms)]: matrices of one shape [(n, k)] are stacked along a new
    third axis; an empty sequence is refused. *)
Definition nothing_to_concatenate : exn :=
  Raise ValueError "need at least one array to concatenate".

Definition dstack (Ms : list matrix) : result tensor3 :=
  match Ms with
  | [] => Err nothing_to_concatenate
  | M0 :: _ =>
      Ok (map (fun i =>
                 map (fun j => map (fun M => entry M i j) Ms)
                     (seq 0 (ncols M0)))
              (seq 0 (length M0)))
  end.

(** [M[idx]] for an array of non-negative row indices. *)
Definition take_rows (M : matrix) (idx : list nat) : result matrix :=
  mapM (fun i =>
          match nth_error M i with
          | Some r => Ok r
          | None => Err (Raise IndexError "index is out of bounds for axis 0")
          end) idx.
End Np.

(** ** tensorflow primitives *)

Module Tf.
Local Open Scope R_scope.

(** [tf.einsum("ijk,j->ik", T, x)]: the axis [j] is contracted, the result
    is indexed by the first and the last axis of [T]. *)
Definition einsum_ijk_j_ik (T : tensor3) (x : vector) : matrix :=
  map (fun M => map (fun k => Np.inner (Np.column k M) x) (seq 0 (ncols M))) T.

(** [K.expand_dims(x, 0)]. *)
Definition expand_dims_0 {A : Type} (x : A) : list A := [x].

(** [K.expand_dims(v, 1)] on a vector: shape [(nt,)] becomes [(nt, 1)]. *)
Definition expand_dims_1 (v : vector) : matrix := map (fun t => [t]) v.

(** [K.expand_dims(M)], on the last axis of a matrix: shape [(nt, 1)] becomes
    [(nt, 1, 1)]. *)
Definition expand_dims_last (M : matrix) : tensor3 :=
  map (map (fun t => [t])) M.

(** Broadcasting of a binary operation along one axis: an axis of length
    one is stretched to the length of the other operand. *)
Definition broadcast {A B C : Type} (f : A -> B -> C)
    (la : list A) (lb : list B) : list C :=
  match la, lb with
  | [a], _ => map (f a) lb
  | _, [b] => map (fun a => f a b) la
  | _, _ => zip_with f la lb
  end.

(** [x * y] on rank-3 tensors. *)
Definition mul3 (x y : tensor3) : tensor3 :=
  broadcast (broadcast (broadcast Rmult)) x y.

Definition cos3 (x : tensor3) : tensor3 := map (map (map cos)) x.
Definition sin3 (x : tensor3) : tensor3 := map (map (map sin)) x.

(** The mean of a vector.  *)
Definition mean (v : vector) : R := Np.sum v / INR (length v).

(** [tf.math.reduce_mean(x, axis=1)]: shape [(a, b, c)] becomes [(a, c)].
    The reduced axis is the sample axis, which [flow] never leaves empty; on
    an empty axis tensorflow answers NaN, which real numbers cannot
    express, and this definition is not meant for that case. *)
Definition reduce_mean_axis1 (x : tensor3) : matrix :=
  map (fun M => map (fun k => mean (Np.column k M)) (seq 0 (ncols M))) x.

(** [tf.concat([x, y], axis=0)]. *)
Definition concat_axis0 {A : Type} (x y : list A) : list A := x ++ y.

(** [K.flatten] of a matrix, in row-major order. *)
Definition flatten (M : matrix) : vector := concat M.
End Tf.

(** ** The characteristic function sampler *)

Definition _empirical_characteristic_function (samples : matrix) (ts : vector)
  : vector :=
  let samples := Tf.expand_dims_0 samples in
  let ts := Tf.expand_dims_last (Tf.expand_dims_1 ts) in
  let t_psi := Tf.mul3 samples ts in
  let mean_cos_t_psi := Tf.reduce_mean_axis1 (Tf.cos3 t_psi) in
  let mean_sin_t_psi := Tf.reduce_mean_axis1 (Tf.sin3 t_psi) in
  Tf.flatten (Tf.concat_axis0 mean_cos_t_psi mean_sin_t_psi).

(** The responses as the specification words them: the mean over the samples
    of [g (x * t)], for each sample point [t] (rows) and each scale (columns),
    with [g] the cosine or the sine.  It is compared below with what the
    sampler computes. *)
Definition mean_response (g : R -> R) (samples : matrix) (ts : vector)
  : matrix :=
  map (fun t =>
         map (fun c =>
                Tf.mean (map (fun row => g (nth c row 0 * t)%R) samples))
             (seq 0 (ncols samples)))
      ts.

(** ** Datasets of [tf.data] *)

Module Dataset.
(** A dataset is one pass of elements, iterated once or for ever. *)
Inductive t (A : Type) : Type :=
| Once (pass : list A)
| Forever (pass : list A).

Arguments Once {A} pass.
Arguments Forever {A} pass.

(** The first [n] elements of the endless repetition of [pass] (none when
    [pass] is empty: repeating an empty dataset yields nothing). *)
Definition cycle {A : Type} (n : nat) (pass : list A) : list A :=
  firstn n (concat (List.repeat pass n)).

(** The elements obtained by pulling at most [n] times from a dataset. *)
Definition take {A : Type} (n : nat) (d : t A) : list A :=
  match d with
  | Once pass => firstn n pass
  | Forever pass => cycle n pass
  end.

Definition from_tensor_slices {A : Type} (l : list A) : t A := Once l.

Definition map {A B : Type} (f : A -> B) (d : t A) : t B :=
  match d with
  | Once pass => Once (List.map f pass)
  | Forever pass => Forever (List.map f pass)
  end.

(** [Dataset.zip] stops with its shortest component. *)
Definition zip {A B : Type} (a : t A) (b : t B) : t (A * B) :=
  match a, b with
  | Once x, Once y => Once (combine x y)
  | Once x, Forever y => Once (combine x (cycle (length x) y))
  | Forever x, Once y => Once (combine (cycle (length y) x) y)
  | Forever x, Forever y =>
      let p := Nat.lcm (length x) (length y) in
      Forever (combine (cycle p x) (cycle p y))
  end.

(** Caching changes when elements are computed, not which ones. *)
Definition cache {A : Type} (d : t A) : t A := d.

(** Consecutive groups of [size] elements, the last one possibly shorter. *)
Fixpoint chunks_fuel {A : Type} (fuel size : nat) (l : list A)
  : list (list A) :=
  match fuel with
  | O => []
  | S fuel' =>
      match l with
      | [] => []
      | _ => firstn size l :: chunks_fuel fuel' size (skipn size l)
      end
  end.

Definition chunks {A : Type} (size : nat) (l : list A) : list (list A) :=
  chunks_fuel (length l) size l.

(** A Python integer given to [tf.data] is converted to an [int64] tensor,
    which fails outside the range of [int64]. *)
Definition to_int64 (n : Z) : result Z :=
  if ((- 2 ^ 63 <=? n) && (n <? 2 ^ 63))%Z then Ok n
  else Err (Raise ValueError "Python int too large to convert to int64").

(** [d.map(f, num_parallel_calls=n)]: the elements are those of [map f], in
    the same order; the number of parallel calls has to be positive, or -1
    (autotune). *)
Definition map_parallel {A B : Type} (f : A -> B) (num_parallel_calls : Z)
    (d : t A) : result (t B) :=
  n <- to_int64 num_parallel_calls ;;
  if ((n =? -1) || (1 <=? n))%Z then Ok (map f d)
  else Err (Raise InvalidArgumentError
              "num_parallel_calls must be greater than zero.").

(** [d.batch(batch_size)]; a batch size below one is refused. *)
Definition batch {A : Type} (batch_size : Z) (d : t A) : result (t (list A)) :=
  n <- to_int64 batch_size ;;
  if (n <? 1)%Z then
    Err (Raise InvalidArgumentError "Batch size must be greater than zero.")
  else
    let size := Z.to_nat n in
    match d with
    | Once pass => Ok (Once (chunks size pass))
    | Forever pass =>
        Ok (Forever (chunks size (cycle (Nat.lcm (length pass) size) pass)))
    end.

Definition repeat {A : Type} (d : t A) : t A :=
  match d with
  | Once pass => Forever pass
  | Forever pass => Forever pass
  end.
End Dataset.

(** ** The generator *)

Definition complex : Type := (R * R)%type.
Definition real (z : complex) : R := fst z.

(** The [scales] argument of the constructor. *)
Inductive scales_arg : Type :=
| Auto
| Explicit (values : list R).

(** What [flow] returns: batches of embeddings, or, when targets are given,
    pairs of a batch of embeddings and the batch of their targets. *)
Inductive flow_dataset (T : Type) : Type :=
| Embeddings (d : Dataset.t (list vector))
| WithTargets (d : Dataset.t (list vector * list T)).

Arguments Embeddings {T} d.
Arguments WithTargets {T} d.

Section GraphWave.
Local Open Scope R_scope.

(** Node identifiers: any type with decidable equality. *)
Variable node : Type.
Variable node_eq_dec : forall a b : node, {a = b} + {a <> b}.

(** [scipy.sparse.linalg.eigs(A, k=k)]: the iterative eigensolver, which
    returns [k] complex eigenvalues and the matrix whose columns are the
    eigenvectors, or raises. *)
Variable eigs : matrix -> Z -> result (list complex * list (list complex)).

(** *** Python dictionaries keyed by node identifiers *)

Definition dict : Type := list (node * nat).

Fixpoint dict_get (d : dict) (key : node) : option nat :=
  match d with
  | [] => None
  | (k, v) :: d' => if node_eq_dec key k then Some v else dict_get d' key
  end.

Fixpoint dict_set (d : dict) (key : node) (val : nat) : dict :=
  match d with
  | [] => [(key, val)]
  | (k, v) :: d' =>
      if node_eq_dec key k then (k, val) :: d' else (k, v) :: dict_set d' key val
  end.

(** [dict(pairs)]: later pairs overwrite earlier ones. *)
Definition dict_of (pairs : list (node * nat)) : dict :=
  fold_left (fun d kv => dict_set d (fst kv) (snd kv)) pairs [].

(** [np.vectorize(d.get, otypes=[np.int64])(ids)]: [d.get] answers [None]
    for a missing key, and the conversion of the answers to [int64] raises
    [TypeError] on [None]. *)
Definition none_to_int64 : exn :=
  Raise TypeError
    "int() argument must be a string, a bytes-like object or a number, not 'NoneType'".

Definition vectorize_get_int64 (d : dict) (ids : list node) : result (list nat) :=
  mapM (fun id =>
          match dict_get d id with
          | Some i => Ok i
          | None => Err none_to_int64
          end) ids.

(** *** The graph, as far as the generator observes it *)

Record StellarGraph : Type := {
  node_types : list string;
  nodes_of_type : string -> list node;
  to_adjacency_matrix : option (list node) -> matrix
}.

Record GraphWaveGenerator : Type := {
  node_list : list node;
  Aadj : matrix;
  node_index_dict : dict;
  eigen_vals : vector;
  eigen_vecs : matrix;
  scales : vector;
  Ues : tensor3
}.

Definition _node_lookup (self : GraphWaveGenerator) (ids : list node)
  : result (list nat) :=
  vectorize_get_int64 (node_index_dict self) ids.

(** *** Construction *)

Definition multiple_node_types : exn :=
  Raise TypeError
    "GraphWaveGenerator: node generator requires graph with single node type; a graph with multiple node types is passed. Stopping.".

(** [l[0]] *)
Definition list_index_out_of_range : exn :=
  Raise IndexError "list index out of range".

Definition first_item {A : Type} (l : list A) : result A :=
  match l with
  | x :: _ => Ok x
  | [] => Err list_index_out_of_range
  end.

(** Lines 53-55: the Laplacian of the adjacency matrix. *)
Definition laplacian_of (adj : matrix) : matrix :=
  let degree_mat := Np.diag (Np.sum_axis1 adj) in
  Np.sub degree_mat adj.

(** Lines 66-72: automatic choice of the scales. *)
Definition auto_scales (eigen_vals : vector) (num_scales : Z) : result vector :=
  e2 <- Np.min (filter Np.gt0 eigen_vals) ;;
  eN <- Np.max eigen_vals ;;
  let min_scale := - ln 0.95 / sqrt (eN * e2) in
  let max_scale := - ln 0.85 / sqrt (eN * e2) in
  Np.linspace min_scale max_scale num_scales.

(** Lines 81-84: the cache [U exp(-scale * eigenvalues)], one slice per
    scale. *)
Definition wavelet_cache (eigen_vals : vector) (eigen_vecs : matrix)
    (scales : vector) : result tensor3 :=
  Ues <- mapM (fun s =>
                 Np.dot eigen_vecs
                        (Np.diag (map (fun ev => exp (- s * ev)) eigen_vals)))
              scales ;;
  Np.dstack Ues.

Definition __init__ (G : StellarGraph) (scales : scales_arg)
    (num_scales : Z) (num_eigenvecs : Z) : result GraphWaveGenerator :=
  let node_types := node_types G in
  if (1 <? length node_types)%nat then Err multiple_node_types
  else
    node_type <- first_item node_types ;;
    let node_list := nodes_of_type G node_type in
    let Aadj := to_adjacency_matrix G (Some node_list) in
    let node_index_dict :=
      dict_of (combine node_list (seq 0 (length node_list))) in
    let adj := to_adjacency_matrix G None in
    let laplacian := laplacian_of adj in
    let num_eigenvecs :=
      if (num_eigenvecs =? -1)%Z
      then (Z.of_nat (length laplacian) - 2)%Z
      else num_eigenvecs in
    '(vals, vecs) <- eigs laplacian num_eigenvecs ;;
    let eigen_vals := map real vals in
    let eigen_vecs := map (map real) vecs in
    scales <- match scales with
              | Auto => auto_scales eigen_vals num_scales
              | Explicit values => Ok values
              end ;;
    Ues <- wavelet_cache eigen_vals eigen_vecs scales ;;
    Ok {| node_list := node_list;
          Aadj := Aadj;
          node_index_dict := node_index_dict;
          eigen_vals := eigen_vals;
          eigen_vecs := eigen_vecs;
          scales := scales;
          Ues := Ues |}.

(** *** Streaming the embeddings *)

(** Lines 105-117: the per-node stages of the pipeline.  The lookup of the
    node ids and the gathering of their eigenvector rows are arguments of
    [from_tensor_slices], evaluated first; the two [map] stages are pure and
    are given [threads] as their number of parallel calls. *)
Definition embedding_dataset (self : GraphWaveGenerator)
    (node_ids : list node) (ts : vector) (threads : Z)
  : result (Dataset.t vector) :=
  idx <- _node_lookup self node_ids ;;
  rows <- Np.take_rows (eigen_vecs self) idx ;;
  samples <- Dataset.map_parallel
               (fun x => Tf.einsum_ijk_j_ik (Ues self) x) threads
               (Dataset.from_tensor_slices rows) ;;
  Dataset.map_parallel
    (fun x => _empirical_characteristic_function x ts) threads samples.

Definition flow {T : Type} (self : GraphWaveGenerator) (node_ids : list node)
    (sample_points : vector) (batch_size : Z) (targets : option (list T))
    (repeat : bool) (threads : Z) : result (flow_dataset T) :=
  let ts := sample_points in
  dataset <- embedding_dataset self node_ids ts threads ;;
  match targets with
  | None =>
      batched <- Dataset.batch batch_size (Dataset.cache dataset) ;;
      if repeat
      then Ok (Embeddings (Dataset.repeat batched))
      else Ok (Embeddings batched)
  | Some targets =>
      let target_dataset := Dataset.from_tensor_slices targets in
      let dataset := Dataset.zip dataset target_dataset in
      batched <- Dataset.batch batch_size (Dataset.cache dataset) ;;
      let batched := Dataset.map (@List.split vector T) batched in
      if repeat
      then Ok (WithTargets (Dataset.repeat batched))
      else Ok (WithTargets batched)
  end.

(** The contract of the eigensolver on a sparse matrix, from the scipy
    documentation: it returns the [k] eigenpairs asked for, [0 < k < N - 1]
    (it raises otherwise), the eigenvectors being the columns of an [N] by
    [k] matrix. *)
Definition eigs_contract : Prop :=
  forall (L : matrix) (k : Z) vals vecs,
    eigs L k = Ok (vals, vecs) ->
    (0 < k < Z.of_nat (length L) - 1)%Z /\
    length vals = Z.to_nat k /\
    shape2 (length L) (Z.to_nat k) vecs.

(** *** Observing what [flow] returns *)

(** The batches of embeddings of a dataset returned by [flow]. *)
Definition embedding_batches {T : Type} (fd : flow_dataset T)
  : Dataset.t (list vector) :=
  match fd with
  | Embeddings d => d
  | WithTargets d => Dataset.map fst d
  end.

(** The first [n] embeddings produced by a dataset returned by [flow]:
    [n] batches hold at least [n] embeddings if that many are produced. *)
Definition pull {T : Type} (n : nat) (fd : flow_dataset T) : list vector :=
  firstn n (concat (Dataset.take n (embedding_batches fd))).

(** The embedding of one node: its eigenvector row, contracted with the
    cache and sampled at [ts]. *)
Definition node_embedding (self : GraphWaveGenerator) (ts : vector)
    (id : node) (e : vector) : Prop :=
  exists i u,
    dict_get (node_index_dict self) id = Some i /\
    nth_error (eigen_vecs self) i = Some u /\
    e = _empirical_characteristic_function
          (Tf.einsum_ijk_j_ik (Ues self) u) ts.
End GraphWave.

Arguments StellarGraph node : clear implicits.
Arguments GraphWaveGenerator node : clear implicits.

(** ** Two concrete graphs

    The cycle on the four nodes 0, 1, 2, 3 and the graph on the same nodes
    without any edge, each with an eigensolver answering for it. *)

Module Demo.
Local Open Scope R_scope.

Definition cycle4 : StellarGraph nat := {|
  node_types := ["default"%string];
  nodes_of_type := fun _ => [0; 1; 2; 3]%nat;
  to_adjacency_matrix := fun _ =>
    [[0; 1; 0; 1];
     [1; 0; 1; 0];
     [0; 1; 0; 1];
     [1; 0; 1; 0]]
|}.

(** The two eigenpairs of largest magnitude of the Laplacian of [cycle4]:
    eigenvalue 4 with eigenvector (1,-1,1,-1)/2 and eigenvalue 2 with
    eigenvector (1,0,-1,0)/sqrt 2. *)
Definition cycle4_eigs (L : matrix) (k : Z)
  : result (list complex * list (list complex)) :=
  if ((k =? 2)%Z && (length L =? 4)%nat)%bool then
    Ok ([(4, 0); (2, 0)],
        [[(1 / 2, 0); (1 / sqrt 2, 0)];
         [(- 1 / 2, 0); (0, 0)];
         [(1 / 2, 0); (- 1 / sqrt 2, 0)];
         [(- 1 / 2, 0); (0, 0)]])
  else Err (Raise ArpackError "no convergence").

Definition empty4 : StellarGraph nat := {|
  node_types := ["default"%string];
  nodes_of_type := fun _ => [0; 1; 2; 3]%nat;
  to_adjacency_matrix := fun _ =>
    [[0; 0; 0; 0];
     [0; 0; 0; 0];
     [0; 0; 0; 0];
     [0; 0; 0; 0]]
|}.

(** The Laplacian of [empty4] is zero: every eigenvalue is 0. *)
Definition empty4_eigs (L : matrix) (k : Z)
  : result (list complex * list (list complex)) :=
  if ((k =? 2)%Z && (length L =? 4)%nat)%bool then
    Ok ([(0, 0); (0, 0)],
        [[(1, 0); (0, 0)];
         [(0, 0); (1, 0)];
         [(0, 0); (0, 0)];
         [(0, 0); (0, 0)]])
  else Err (Raise ArpackError "no convergence").

(** Graphs whose node-type filter yields no type, and two types. *)
Definition untyped : StellarGraph nat := {|
  node_types := [];
  nodes_of_type := fun _ => [];
  to_adjacency_matrix := fun _ => []
|}.

Definition two_typed : StellarGraph nat := {|
  node_types := ["user"%string; "item"%string];
  nodes_of_type := fun t => if String.eqb t "user" then [0; 1]%nat else [2; 3]%nat;
  to_adjacency_matrix := fun _ =>
    [[0; 0; 1; 0];
     [0; 0; 0; 1];
     [1; 0; 0; 0];
     [0; 1; 0; 0]]
|}.
End Demo.

(** * Properties *)

(** ** The error monad *)

Lemma bind_ok {A B : Type} (c : result A) (k : A -> result B) (b : B) :
  bind c k = Ok b -> exists a, c = Ok a /\ k a = Ok b.
Proof.
  destruct c as [a|e]; simpl; intros H.
  - exists a; split; [reflexivity | exact H].
  - discriminate H.
Qed.

Lemma mapM_Forall2 {A B : Type} (f : A -> result B) (l : list A) (bs : list B) :
  mapM f l = Ok bs -> Forall2 (fun a b => f a = Ok b) l bs.
Proof.
  revert bs; induction l as [|a l IH]; simpl; intros bs H.
  - injection H as <-. constructor.
  - apply bind_ok in H. destruct H as (b & Hb & H).
    apply bind_ok in H. destruct H as (bs' & Hbs & H).
    injection H as <-. constructor; auto.
Qed.

Lemma mapM_total {A B : Type} (f : A -> result B) (l : list A) :
  (forall a, In a l -> exists b, f a = Ok b) -> exists bs, mapM f l = Ok bs.
Proof.
  induction l as [|a l IH]; simpl; intros H.
  - eexists; reflexivity.
  - destruct (H a (or_introl eq_refl)) as (b & Hb). rewrite Hb. simpl.
    destruct IH as (bs & Hbs); [intros; apply H; now right|].
    rewrite Hbs. simpl. eexists; reflexivity.
Qed.

(** When every failure of [f] is the same exception, one failing element
    makes [mapM f] fail with it. *)
Lemma mapM_fails {A B : Type} (f : A -> result B) (l : list A) (e : exn) (a : A) :
  (forall x e', f x = Err e' -> e' = e) ->
  In a l -> f a = Err e -> mapM f l = Err e.
Proof.
  intros Hone. induction l as [|x l IH]; simpl; intros Hin Ha.
  - contradiction.
  - destruct (f x) as [b|e'] eqn:Hx; simpl.
    + destruct Hin as [->|Hin]; [congruence|].
      rewrite (IH Hin Ha). reflexivity.
    + f_equal. now apply Hone with x.
Qed.

(** ** Lists and shapes *)

Lemma length_zip_with {A B C : Type} (f : A -> B -> C) la lb :
  length (zip_with f la lb) = Nat.min (length la) (length lb).
Proof.
  revert lb; induction la as [|a la IH]; intros [|b lb]; simpl; auto.
Qed.

Lemma nth_zip_with {A B C : Type} (f : A -> B -> C) la lb i da db dc :
  (i < length la)%nat -> (i < length lb)%nat ->
  nth i (zip_with f la lb) dc = f (nth i la da) (nth i lb db).
Proof.
  revert lb i; induction la as [|a la IH]; intros [|b lb] [|i]; simpl;
    intros H1 H2; try lia; auto.
  apply IH; lia.
Qed.

Lemma nth_map_seq {A : Type} (f : nat -> A) (s n i : nat) (d : A) :
  (i < n)%nat -> nth i (map f (seq s n)) d = f (s + i)%nat.
Proof.
  intros H. rewrite (nth_indep _ d (f 0%nat)) by (rewrite length_map, length_seq; lia).
  rewrite (map_nth f). now rewrite seq_nth.
Qed.

Lemma shape2_nth {A : Type} (n k : nat) (M : list (list A)) (i : nat) :
  shape2 n k M -> (i < n)%nat -> length (nth i M []) = k.
Proof.
  intros [Hn HM] Hi. rewrite Forall_forall in HM. apply HM, nth_In. lia.
Qed.

Lemma shape2_ncols {A : Type} (n k : nat) (M : list (list A)) :
  shape2 n k M -> (0 < n)%nat -> ncols M = k.
Proof.
  intros [Hn HM] Hpos. unfold ncols. destruct M as [|r M]; simpl in *; [lia|].
  now inversion HM.
Qed.

(** ** Sums *)

Section Sums.
Local Open Scope R_scope.

Lemma sum_zip_minus (a b : vector) :
  length a = length b ->
  Np.sum (zip_with Rminus a b) = Np.sum a - Np.sum b.
Proof.
  revert b; induction a as [|x a IH]; intros [|y b]; simpl; intros H;
    try discriminate; [lra|].
  rewrite IH by lia. lra.
Qed.

(** The sum of a row that is zero except at position [i]. *)
Lemma sum_delta (i : nat) (x : R) (s n : nat) :
  Np.sum (map (fun j => if Nat.eqb i j then x else 0) (seq s n)) =
  if ((s <=? i) && (i <? s + n))%nat%bool then x else 0.
Proof.
  revert s; induction n as [|n IH]; intros s; simpl.
  - destruct (s <=? i)%nat eqn:E1, (i <? s + 0)%nat eqn:E2; simpl; auto.
    apply Nat.leb_le in E1. apply Nat.ltb_lt in E2. lia.
  - rewrite IH.
    destruct (Nat.eqb_spec i s) as [->|Hne].
    + replace (S s <=? s)%nat with false by (symmetry; apply Nat.leb_gt; lia).
      replace (s <=? s)%nat with true by (symmetry; apply Nat.leb_le; lia).
      replace (s <? s + S n)%nat with true by (symmetry; apply Nat.ltb_lt; lia).
      simpl. lra.
    + destruct (s <=? i)%nat eqn:E1, (S s <=? i)%nat eqn:E2,
        (i <? s + S n)%nat eqn:E3, (i <? S s + n)%nat eqn:E4; simpl; try lra;
        repeat match goal with
               | H : (_ <=? _)%nat = true |- _ => apply Nat.leb_le in H
               | H : (_ <=? _)%nat = false |- _ => apply Nat.leb_gt in H
               | H : (_ <? _)%nat = true |- _ => apply Nat.ltb_lt in H
               | H : (_ <? _)%nat = false |- _ => apply Nat.ltb_ge in H
               end; lia.
Qed.
End Sums.

(** ** The Laplacian *)

Section Laplacian.
Local Open Scope R_scope.

Lemma diag_shape (v : vector) : shape2 (length v) (length v) (Np.diag v).
Proof.
  unfold Np.diag; split.
  - now rewrite length_map, length_seq.
  - apply Forall_forall. intros r Hr. apply in_map_iff in Hr.
    destruct Hr as (i & <- & _). now rewrite length_map, length_seq.
Qed.

Lemma diag_row (v : vector) (i : nat) :
  (i < length v)%nat ->
  nth i (Np.diag v) [] =
  map (fun j => if Nat.eqb i j then nth i v 0 else 0) (seq 0 (length v)).
Proof. intros H. unfold Np.diag. now rewrite nth_map_seq. Qed.

Lemma diag_entry (v : vector) (i j : nat) :
  (i < length v)%nat -> (j < length v)%nat ->
  entry (Np.diag v) i j = if Nat.eqb i j then nth i v 0 else 0.
Proof.
  intros Hi Hj. unfold entry. rewrite diag_row by assumption.
  now rewrite nth_map_seq.
Qed.

Lemma laplacian_row (adj : matrix) (N i : nat) :
  shape2 N N adj -> (i < N)%nat ->
  nth i (laplacian_of adj) [] =
  zip_with Rminus
    (map (fun j => if Nat.eqb i j then Np.sum (nth i adj []) else 0) (seq 0 N))
    (nth i adj []).
Proof.
  intros [HN Hrows] Hi. unfold laplacian_of, Np.sub.
  assert (Hlen : length (Np.sum_axis1 adj) = N)
    by (unfold Np.sum_axis1; now rewrite length_map).
  rewrite (nth_zip_with _ _ _ [] [] []).
  - rewrite diag_row by lia. rewrite Hlen. unfold Np.sum_axis1.
    assert (Hsum : nth i (map Np.sum adj) 0 = Np.sum (nth i adj [])).
    { rewrite (nth_indep (map Np.sum adj) 0 (Np.sum []))
        by (rewrite length_map; lia).
      apply map_nth. }
    now rewrite Hsum.
  - destruct (diag_shape (Np.sum_axis1 adj)) as [-> _]. lia.
  - lia.
Qed.

Lemma laplacian_entry (adj : matrix) (N i j : nat) :
  shape2 N N adj -> (i < N)%nat -> (j < N)%nat ->
  entry (laplacian_of adj) i j =
  (if Nat.eqb i j then Np.sum (nth i adj []) else 0) - entry adj i j.
Proof.
  intros Hsq Hi Hj. unfold entry. rewrite (laplacian_row Hsq Hi).
  rewrite (nth_zip_with _ _ _ 0 0 0).
  - now rewrite nth_map_seq.
  - now rewrite length_map, length_seq.
  - now rewrite (shape2_nth Hsq Hi).
Qed.

Lemma laplacian_shape (adj : matrix) (N : nat) :
  shape2 N N adj -> shape2 N N (laplacian_of adj).
Proof.
  intros Hsq. pose proof Hsq as [HN Hrows].
  assert (Hlen : length (laplacian_of adj) = N).
  { unfold laplacian_of, Np.sub. rewrite length_zip_with.
    destruct (diag_shape (Np.sum_axis1 adj)) as [-> _].
    unfold Np.sum_axis1. rewrite length_map. lia. }
  split; [exact Hlen|].
  apply Forall_forall. intros r Hr.
  destruct (In_nth _ _ [] Hr) as (i & Hi & <-). rewrite Hlen in Hi.
  rewrite (laplacian_row Hsq Hi), length_zip_with, length_map, length_seq.
  rewrite (shape2_nth Hsq Hi). lia.
Qed.

(** [laplacian_of A] is [diag(rowSums(A)) - A], entry by entry and without
    any normalisation; for a square matrix (whatever the sign of its
    entries) each of its rows sums to zero, and it is symmetric exactly when
    [A] is. *)
Lemma laplacian_of_spec (adj : matrix) (N : nat) :
  shape2 N N adj ->
  shape2 N N (laplacian_of adj) /\
  (forall i j, (i < N)%nat -> (j < N)%nat ->
     entry (laplacian_of adj) i j =
     (if Nat.eqb i j then Np.sum (nth i adj []) else 0) - entry adj i j) /\
  (forall i, (i < N)%nat -> Np.sum (nth i (laplacian_of adj) []) = 0) /\
  ((forall i j, (i < N)%nat -> (j < N)%nat ->
      entry (laplacian_of adj) i j = entry (laplacian_of adj) j i) <->
   (forall i j, (i < N)%nat -> (j < N)%nat ->
      entry adj i j = entry adj j i)).
Proof.
  intros Hsq. split; [now apply laplacian_shape|].
  split; [intros i j Hi Hj; exact (laplacian_entry Hsq Hi Hj)|]. split.
  - intros i Hi. rewrite (laplacian_row Hsq Hi).
    rewrite sum_zip_minus
      by (rewrite length_map, length_seq; now rewrite (shape2_nth Hsq Hi)).
    rewrite sum_delta.
    replace ((0 <=? i)%nat && (i <? 0 + N)%nat)%bool with true.
    + lra.
    + symmetry. apply andb_true_iff. split;
        [apply Nat.leb_le | apply Nat.ltb_lt]; lia.
  - split; intros Hsym i j Hi Hj.
    + pose proof (Hsym i j Hi Hj) as H.
      rewrite (laplacian_entry Hsq Hi Hj), (laplacian_entry Hsq Hj Hi) in H.
      revert H.
      destruct (Nat.eqb_spec i j) as [->|Hne]; [reflexivity|].
      destruct (Nat.eqb_spec j i) as [->|_]; [contradiction|]. lra.
    + rewrite (laplacian_entry Hsq Hi Hj), (laplacian_entry Hsq Hj Hi).
      rewrite (Hsym i j Hi Hj).
      destruct (Nat.eqb_spec i j) as [->|Hne].
      * now rewrite Nat.eqb_refl.
      * destruct (Nat.eqb_spec j i) as [->|_]; [contradiction|]. reflexivity.
Qed.
End Laplacian.

(** ** Flattening matrices *)

Lemma length_concat_uniform {A : Type} (M : list (list A)) (m k : nat) :
  shape2 m k M -> length (concat M) = (m * k)%nat.
Proof.
  intros [Hm Hrows]. subst m. induction Hrows as [|r M Hr _ IH]; simpl.
  - reflexivity.
  - rewrite length_app, IH, Hr. reflexivity.
Qed.

Lemma nth_concat_uniform {A : Type} (M : list (list A)) (m k a c : nat) (d : A) :
  shape2 m k M -> (a < m)%nat -> (c < k)%nat ->
  nth (a * k + c) (concat M) d = nth c (nth a M []) d.
Proof.
  intros [Hm Hrows]. subst m. revert a.
  induction Hrows as [|r M Hr _ IH]; simpl; intros a Ha Hc; [lia|].
  destruct a as [|a]; simpl.
  - apply app_nth1. lia.
  - rewrite app_nth2 by lia. rewrite Hr.
    replace (k + a * k + c - k)%nat with (a * k + c)%nat by lia.
    apply IH; lia.
Qed.

Lemma ncols_map_map {A B : Type} (g : A -> B) (M : list (list A)) :
  ncols (map (map g) M) = ncols M.
Proof. unfold ncols. destruct M; simpl; [reflexivity | apply length_map]. Qed.

Lemma nth_map_lt {A B : Type} (f : A -> B) (l : list A) (i : nat) (d : A)
    (d' : B) :
  (i < length l)%nat -> nth i (map f l) d' = f (nth i l d).
Proof.
  intros H. rewrite (nth_indep _ d' (f d)) by (rewrite length_map; exact H).
  apply map_nth.
Qed.

(** ** Broadcasting and the characteristic function sampler *)

Section Sampler.
Local Open Scope R_scope.

Lemma broadcast_one_l {A B C : Type} (f : A -> B -> C) (a : A) (lb : list B) :
  Tf.broadcast f [a] lb = map (f a) lb.
Proof. reflexivity. Qed.

Lemma broadcast_one_r {A B C : Type} (f : A -> B -> C) (la : list A) (b : B) :
  Tf.broadcast f la [b] = map (fun a => f a b) la.
Proof. destruct la as [|a [|a' la]]; reflexivity. Qed.

(** The product [samples * ts] after the two [expand_dims]: entry
    [(a, b, c)] is [samples[b][c] * ts[a]]. *)
Lemma t_psi_broadcast (samples : matrix) (ts : vector) :
  Tf.mul3 (Tf.expand_dims_0 samples)
          (Tf.expand_dims_last (Tf.expand_dims_1 ts)) =
  map (fun t => map (map (fun x => x * t)) samples) ts.
Proof.
  unfold Tf.mul3, Tf.expand_dims_0, Tf.expand_dims_last, Tf.expand_dims_1.
  rewrite broadcast_one_l, !map_map. apply map_ext. intros t. simpl.
  rewrite broadcast_one_r. apply map_ext. intros row.
  apply broadcast_one_r.
Qed.

Lemma mean_response_shape (g : R -> R) (samples : matrix) (ts : vector) :
  shape2 (length ts) (ncols samples) (mean_response g samples ts).
Proof.
  unfold mean_response. split.
  - apply length_map.
  - apply Forall_forall. intros r Hr. apply in_map_iff in Hr.
    destruct Hr as (t & <- & _). now rewrite length_map, length_seq.
Qed.

Lemma reduce_mean_response (g : R -> R) (samples : matrix) (ts : vector)
    (ns S : nat) :
  shape2 ns S samples ->
  Tf.reduce_mean_axis1
    (map (map (map g)) (map (fun t => map (map (fun x => x * t)) samples) ts)) =
  mean_response g samples ts.
Proof.
  intros Hsh. unfold Tf.reduce_mean_axis1, mean_response.
  rewrite !map_map. apply map_ext. intros t.
  rewrite !ncols_map_map. apply map_ext_in. intros c Hc.
  apply in_seq in Hc. unfold Tf.mean, Np.column.
  rewrite !map_map, !length_map. f_equal. f_equal.
  apply map_ext_in. intros row Hrow.
  assert (Hlen : length row = ncols samples).
  { pose proof Hsh as [Hns Hrows]. rewrite Forall_forall in Hrows.
    rewrite (Hrows row Hrow). symmetry.
    apply (shape2_ncols Hsh).
    destruct samples; [contradiction | simpl in Hns; lia]. }
  rewrite map_map.
  rewrite (nth_indep _ 0 (g (0 * t))) by (rewrite length_map; lia).
  now rewrite (map_nth (fun x => g (x * t))).
Qed.

(** The embedding is the flattened mean-cosine block followed by the
    flattened mean-sine block. *)
Lemma ecf_blocks (samples : matrix) (ts : vector) (ns S : nat) :
  shape2 ns S samples ->
  _empirical_characteristic_function samples ts =
  Tf.flatten (mean_response cos samples ts) ++
  Tf.flatten (mean_response sin samples ts).
Proof.
  intros Hsh. unfold _empirical_characteristic_function.
  rewrite t_psi_broadcast. unfold Tf.cos3, Tf.sin3.
  rewrite !(reduce_mean_response _ ts Hsh).
  unfold Tf.flatten, Tf.concat_axis0. apply concat_app.
Qed.

Lemma ecf_length (samples : matrix) (ts : vector) (ns S : nat) :
  shape2 ns S samples -> (0 < ns)%nat ->
  length (_empirical_characteristic_function samples ts) =
  (2 * length ts * S)%nat.
Proof.
  intros Hsh Hns. rewrite (ecf_blocks ts Hsh), length_app. unfold Tf.flatten.
  rewrite !(length_concat_uniform (mean_response_shape _ samples ts)).
  rewrite (shape2_ncols Hsh Hns). lia.
Qed.

(** Where each response sits in the embedding. *)
Lemma ecf_slots (samples : list (list R)) (ts : list R) (ns S a c : nat) :
  shape2 ns S samples -> (0 < ns)%nat ->
  (a < length ts)%nat -> (c < S)%nat ->
  nth (a * S + c) (_empirical_characteristic_function samples ts) 0 =
    Tf.mean (map (fun row => cos (nth c row 0 * nth a ts 0)) samples) /\
  nth (length ts * S + a * S + c)
      (_empirical_characteristic_function samples ts) 0 =
    Tf.mean (map (fun row => sin (nth c row 0 * nth a ts 0)) samples).
Proof.
  intros Hsh Hns Ha Hc. rewrite (ecf_blocks ts Hsh). unfold Tf.flatten.
  pose proof (shape2_ncols Hsh Hns) as Hcols.
  assert (Hresp : forall g,
    shape2 (length ts) S (mean_response g samples ts) /\
    nth c (nth a (mean_response g samples ts) []) 0 =
    Tf.mean (map (fun row => g (nth c row 0 * nth a ts 0)) samples)).
  { intros g. split.
    - rewrite <- Hcols. apply mean_response_shape.
    - unfold mean_response. rewrite (nth_map_lt _ _ 0 [] Ha).
      rewrite Hcols. now rewrite nth_map_seq. }
  destruct (Hresp cos) as [Hshc Hcos]. destruct (Hresp sin) as [Hshs Hsin].
  split.
  - rewrite app_nth1
      by (rewrite (length_concat_uniform Hshc); nia).
    now rewrite (nth_concat_uniform 0 Hshc Ha Hc).
  - rewrite app_nth2
      by (rewrite (length_concat_uniform Hshc); nia).
    rewrite (length_concat_uniform Hshc).
    replace (length ts * S + a * S + c - length ts * S)%nat
      with (a * S + c)%nat by lia.
    now rewrite (nth_concat_uniform 0 Hshs Ha Hc).
Qed.

(** [tf.einsum("ijk,j->ik", T, x)] keeps the first and the last axis. *)
Lemma einsum_shape (T : tensor3) (x : vector) (N k S : nat) :
  shape3 N k S T -> (0 < k)%nat -> shape2 N S (Tf.einsum_ijk_j_ik T x).
Proof.
  intros [HN HT] Hk. unfold Tf.einsum_ijk_j_ik. split.
  - now rewrite length_map.
  - apply Forall_forall. intros r Hr. apply in_map_iff in Hr.
    destruct Hr as (M & <- & HM). rewrite Forall_forall in HT.
    rewrite length_map, length_seq. apply (shape2_ncols (HT M HM) Hk).
Qed.
End Sampler.

(** ** The wavelet coefficient cache *)

Lemma Forall2_nth {A B : Type} (P : A -> B -> Prop) (l : list A) (l' : list B)
    (i : nat) (d : A) (d' : B) :
  Forall2 P l l' -> (i < length l)%nat -> P (nth i l d) (nth i l' d').
Proof.
  intros H. revert i. induction H as [|a b l l' Hab _ IH]; simpl; intros i Hi.
  - lia.
  - destruct i as [|i]; [exact Hab | apply IH; lia].
Qed.

Lemma Forall2_length_eq {A B : Type} (P : A -> B -> Prop) l l' :
  Forall2 P l l' -> length l = length l'.
Proof. induction 1; simpl; congruence. Qed.

Section Cache.
Local Open Scope R_scope.

Lemma diag_ncols (v : vector) : ncols (Np.diag v) = length v.
Proof.
  unfold ncols, Np.diag. destruct v as [|x v]; [reflexivity|].
  cbn [length seq map hd]. now rewrite length_map, length_seq.
Qed.

Lemma diag_column (v : vector) (j : nat) :
  (j < length v)%nat ->
  Np.column j (Np.diag v) =
  map (fun i => if Nat.eqb i j then nth j v 0 else 0) (seq 0 (length v)).
Proof.
  intros Hj. unfold Np.column, Np.diag. rewrite map_map.
  apply map_ext_in. intros i Hi. rewrite nth_map_seq by assumption. simpl.
  destruct (Nat.eqb_spec i j) as [->|_]; reflexivity.
Qed.

(** The inner product with a vector that is zero except at position [j]. *)
Lemma inner_delta (r : vector) (j : nat) (x : R) (s : nat) :
  Np.inner r (map (fun i => if Nat.eqb i j then x else 0) (seq s (length r))) =
  if ((s <=? j) && (j <? s + length r))%nat%bool
  then nth (j - s) r 0 * x else 0.
Proof.
  unfold Np.inner. revert s. induction r as [|y r IH]; intros s; simpl.
  - destruct (s <=? j)%nat eqn:E1, (j <? s + 0)%nat eqn:E2; simpl; auto.
    apply Nat.leb_le in E1. apply Nat.ltb_lt in E2. lia.
  - rewrite IH. destruct (Nat.eqb_spec s j) as [->|Hne].
    + replace (S j <=? j)%nat with false by (symmetry; apply Nat.leb_gt; lia).
      replace (j <=? j)%nat with true by (symmetry; apply Nat.leb_le; lia).
      replace (j <? j + S (length r))%nat with true
        by (symmetry; apply Nat.ltb_lt; lia).
      rewrite Nat.sub_diag. simpl. lra.
    + destruct (s <=? j)%nat eqn:E1, (S s <=? j)%nat eqn:E2,
        (j <? s + S (length r))%nat eqn:E3,
        (j <? S s + length r)%nat eqn:E4; simpl;
        repeat match goal with
               | H : (_ <=? _)%nat = true |- _ => apply Nat.leb_le in H
               | H : (_ <=? _)%nat = false |- _ => apply Nat.leb_gt in H
               | H : (_ <? _)%nat = true |- _ => apply Nat.ltb_lt in H
               | H : (_ <? _)%nat = false |- _ => apply Nat.ltb_ge in H
               end; try lia; try lra.
      destruct (j - s)%nat as [|p] eqn:Ep; [lia|].
      replace (j - S s)%nat with p by lia. lra.
Qed.

Lemma forallb_lengths (U : matrix) (N k : nat) :
  shape2 N k U -> forallb (fun r => Nat.eqb (length r) k) U = true.
Proof.
  intros [_ H]. apply forallb_forall. rewrite Forall_forall in H.
  intros r Hr. apply Nat.eqb_eq. now apply H.
Qed.

(** [U.dot(np.diag(d))] scales column [j] of [U] by [d[j]]. *)
Lemma dot_diag (U : matrix) (d : vector) (N k : nat) :
  shape2 N k U -> length d = k ->
  exists M, Np.dot U (Np.diag d) = Ok M /\ shape2 N k M /\
    forall i j, (i < N)%nat -> (j < k)%nat ->
      entry M i j = entry U i j * nth j d 0.
Proof.
  intros HU Hd. unfold Np.dot.
  destruct (diag_shape d) as [Hdl _]. rewrite Hdl, Hd.
  rewrite (forallb_lengths HU). eexists. split; [reflexivity|].
  rewrite diag_ncols, Hd. pose proof HU as [HN Hrows]. split; [split|].
  - now rewrite length_map.
  - apply Forall_forall. intros r Hr. apply in_map_iff in Hr.
    destruct Hr as (r0 & <- & _). now rewrite length_map, length_seq.
  - intros i j Hi Hj. unfold entry.
    rewrite (nth_indep _ [] ((fun r => map (fun j0 => Np.inner r
               (Np.column j0 (Np.diag d))) (seq 0 k)) []))
      by (rewrite length_map; lia).
    rewrite (map_nth (fun r => map (fun j0 => Np.inner r
               (Np.column j0 (Np.diag d))) (seq 0 k))).
    rewrite nth_map_seq by assumption. simpl.
    rewrite diag_column by lia. rewrite Hd.
    replace (seq 0 k) with (seq 0 (length (nth i U [])))
      by (now rewrite (shape2_nth HU Hi)).
    rewrite inner_delta. rewrite (shape2_nth HU Hi).
    replace ((0 <=? j)%nat && (j <? 0 + k)%nat)%bool with true.
    + now rewrite Nat.sub_0_r.
    + symmetry. apply andb_true_iff. split;
        [apply Nat.leb_le | apply Nat.ltb_lt]; lia.
Qed.

Lemma dstack_ok (Ms : list matrix) (T : tensor3) :
  Np.dstack Ms = Ok T ->
  Ms <> [] /\
  T = map (fun i =>
             map (fun j => map (fun M => entry M i j) Ms)
                 (seq 0 (ncols (hd [] Ms))))
          (seq 0 (length (hd [] Ms))).
Proof.
  destruct Ms as [|M0 Ms']; intros H; [discriminate|].
  injection H as <-. split; [discriminate | reflexivity].
Qed.

Lemma dstack_shape (Ms : list matrix) (T : tensor3) (N k : nat) :
  Forall (shape2 N k) Ms -> Np.dstack Ms = Ok T ->
  Ms <> [] /\ shape3 N k (length Ms) T /\
  forall i j c, (i < N)%nat -> (j < k)%nat ->
    entry3 T i j c = entry (nth c Ms []) i j.
Proof.
  intros HMs H. apply dstack_ok in H. destruct H as [Hne ->].
  assert (HM0 : shape2 N k (hd [] Ms)).
  { destruct Ms; [contradiction | now inversion HMs]. }
  clear HMs. pose proof HM0 as [HN0 _]. rewrite HN0.
  split; [exact Hne|]. split; [split|].
  - now rewrite length_map, length_seq.
  - apply Forall_forall. intros r Hr. apply in_map_iff in Hr.
    destruct Hr as (i & <- & Hi). apply in_seq in Hi.
    rewrite (shape2_ncols HM0) by lia. split.
    + now rewrite length_map, length_seq.
    + apply Forall_forall. intros v Hv. apply in_map_iff in Hv.
      destruct Hv as (j & <- & _). apply length_map.
  - intros i j c Hi Hj. unfold entry3.
    rewrite nth_map_seq by assumption.
    rewrite (shape2_ncols HM0) by lia.
    rewrite nth_map_seq by assumption. rewrite !Nat.add_0_l.
    destruct (Nat.lt_ge_cases c (length Ms)) as [Hc|Hc].
    + rewrite (nth_indep _ 0 ((fun M => entry M i j) []))
        by (rewrite length_map; exact Hc).
      now rewrite (map_nth (fun M => entry M i j)).
    + rewrite !nth_overflow; [|exact Hc|rewrite length_map; exact Hc].
      unfold entry. destruct i, j; reflexivity.
Qed.
End Cache.

(** ** Scale selection *)

Section Scales.
Local Open Scope R_scope.

Lemma fold_left_Rmin_spec (xs : vector) (x : R) :
  In (fold_left Rmin xs x) (x :: xs) /\
  forall y, In y (x :: xs) -> fold_left Rmin xs x <= y.
Proof.
  revert x. induction xs as [|z xs IH]; intros x; simpl.
  - split; [now left | intros y [<-|[]]; lra].
  - destruct (IH (Rmin x z)) as [Hin Hle]. split.
    + destruct Hin as [Hin|Hin]; [|now right; right].
      rewrite <- Hin. unfold Rmin. destruct (Rle_dec x z); auto.
    + intros y [<-|[<-|Hy]].
      * eapply Rle_trans; [apply Hle; now left | apply Rmin_l].
      * eapply Rle_trans; [apply Hle; now left | apply Rmin_r].
      * apply Hle. now right.
Qed.

Lemma fold_left_Rmax_spec (xs : vector) (x : R) :
  In (fold_left Rmax xs x) (x :: xs) /\
  forall y, In y (x :: xs) -> y <= fold_left Rmax xs x.
Proof.
  revert x. induction xs as [|z xs IH]; intros x; simpl.
  - split; [now left | intros y [<-|[]]; lra].
  - destruct (IH (Rmax x z)) as [Hin Hle]. split.
    + destruct Hin as [Hin|Hin]; [|now right; right].
      rewrite <- Hin. unfold Rmax. destruct (Rle_dec x z); auto.
    + intros y [<-|[<-|Hy]].
      * eapply Rle_trans; [apply Rmax_l | apply Hle; now left].
      * eapply Rle_trans; [apply Rmax_r | apply Hle; now left].
      * apply Hle. now right.
Qed.

Lemma min_spec (v : vector) (m : R) :
  Np.min v = Ok m -> In m v /\ forall y, In y v -> m <= y.
Proof.
  destruct v as [|x xs]; simpl; intros H; [discriminate|].
  injection H as <-. apply fold_left_Rmin_spec.
Qed.

Lemma max_spec (v : vector) (m : R) :
  Np.max v = Ok m -> In m v /\ forall y, In y v -> y <= m.
Proof.
  destruct v as [|x xs]; simpl; intros H; [discriminate|].
  injection H as <-. apply fold_left_Rmax_spec.
Qed.

Lemma gt0_true (x : R) : Np.gt0 x = true <-> 0 < x.
Proof.
  unfold Np.gt0. destruct (Rlt_dec 0 x); split; auto; discriminate.
Qed.

Lemma filter_gt0_nil (v : vector) :
  Forall (fun x => ~ 0 < x) v -> filter Np.gt0 v = [].
Proof.
  induction 1 as [|x v Hx _ IH]; simpl; [reflexivity|].
  destruct (Np.gt0 x) eqn:E; [|exact IH].
  apply gt0_true in E. contradiction.
Qed.

(** The samples of [np.linspace]: the count asked for, evenly spaced from
    [start] with step [(stop - start) / (num - 1)]. *)
Lemma linspace_spec (start stop : R) (num : Z) (ys : vector) :
  Np.linspace start stop num = Ok ys ->
  (0 <= num)%Z /\ length ys = Z.to_nat num /\
  forall i, (i < Z.to_nat num)%nat ->
    nth i ys 0 = start + INR i * ((stop - start) / INR (Z.to_nat num - 1)).
Proof.
  unfold Np.linspace. destruct (Z.ltb_spec num 0) as [Hneg|Hpos];
    [discriminate|].
  intros H. injection H as <-. split; [exact Hpos|]. cbv zeta.
  set (n := Z.to_nat num).
  set (step := (stop - start) / INR (n - 1)).
  assert (Hy :
    map (fun v => v + start)
      (if (0 <? n - 1)%nat
       then if Req_dec_T ((stop - start) / INR (n - 1)) 0
            then map (fun v => v / INR (n - 1) * (stop - start))
                     (map INR (seq 0 n))
            else map (fun v => v * ((stop - start) / INR (n - 1)))
                     (map INR (seq 0 n))
       else map (fun v => v * (stop - start)) (map INR (seq 0 n))) =
    map (fun i => start + INR i * step) (seq 0 n)).
  { destruct (Nat.ltb_spec 0 (n - 1)) as [Hdiv|Hdiv].
    - assert (Hnz : INR (n - 1) <> 0) by (apply not_0_INR; lia).
      destruct (Req_dec_T ((stop - start) / INR (n - 1)) 0);
        rewrite !map_map; apply map_ext; intros i; unfold step;
        field; exact Hnz.
    - rewrite !map_map. apply map_ext_in. intros i Hi. apply in_seq in Hi.
      assert (i = 0%nat) by lia. subst i. simpl. ring. }
  subst step. rewrite Hy. clear Hy.
  destruct (Nat.ltb_spec 1 n) as [Hn|Hn].
  - clearbody n. destruct n as [|n']; [lia|].
    rewrite seq_S, map_app. cbn [map]. rewrite removelast_last.
    split.
    + rewrite length_app, length_map, length_seq. simpl. lia.
    + intros i Hi. destruct (Nat.eq_dec i n') as [->|Hne].
      * rewrite app_nth2 by (rewrite length_map, length_seq; lia).
        rewrite length_map, length_seq, Nat.sub_diag. simpl nth.
        replace (S n' - 1)%nat with n' by lia.
        field. apply not_0_INR. lia.
      * rewrite app_nth1 by (rewrite length_map, length_seq; lia).
        rewrite nth_map_seq by lia. reflexivity.
  - split.
    + now rewrite length_map, length_seq.
    + intros i Hi. rewrite nth_map_seq by exact Hi. reflexivity.
Qed.

Lemma linspace_ok (start stop : R) (num : Z) :
  (0 <= num)%Z -> exists ys, Np.linspace start stop num = Ok ys.
Proof.
  intros H. unfold Np.linspace.
  destruct (Z.ltb_spec num 0); [lia|]. eexists; reflexivity.
Qed.

(** With a single sample [np.linspace] returns [start] alone. *)
Lemma linspace_one (start stop : R) :
  Np.linspace start stop 1 = Ok [0 * (stop - start) + start].
Proof. reflexivity. Qed.
End Scales.

(** ** Datasets *)

Section Datasets.
Context {A : Type}.

Lemma chunks_fuel_concat (size fuel : nat) (l : list A) :
  (0 < size)%nat -> (length l <= fuel)%nat ->
  concat (Dataset.chunks_fuel fuel size l) = l.
Proof.
  intros Hsize. revert l. induction fuel as [|fuel IH]; intros l Hl; simpl.
  - destruct l; [reflexivity | simpl in Hl; lia].
  - destruct l as [|a l']; [reflexivity|].
    cbn [concat]. rewrite IH.
    + apply firstn_skipn.
    + rewrite length_skipn. cbn [length] in *. lia.
Qed.

Lemma chunks_fuel_nonempty (size fuel : nat) (l : list A) :
  (0 < size)%nat ->
  Forall (fun b => b <> []) (Dataset.chunks_fuel fuel size l).
Proof.
  intros Hsize. revert l. induction fuel as [|fuel IH]; intros l; simpl.
  - constructor.
  - destruct l as [|a l']; [constructor|]. constructor; [|apply IH].
    destruct size; [lia | discriminate].
Qed.

Lemma chunks_concat (size : nat) (l : list A) :
  (0 < size)%nat -> concat (Dataset.chunks size l) = l.
Proof. intros H. apply chunks_fuel_concat; [exact H | lia]. Qed.

Lemma chunks_nonempty (size : nat) (l : list A) :
  (0 < size)%nat -> Forall (fun b => b <> []) (Dataset.chunks size l).
Proof. apply chunks_fuel_nonempty. Qed.


(** Nothing can be pulled from the repetition of an empty pass. *)
Lemma cycle_nil (n : nat) : Dataset.cycle n (@nil A) = [].
Proof.
  unfold Dataset.cycle.
  assert (H : concat (List.repeat (@nil A) n) = []).
  { induction n; simpl; auto. }
  rewrite H. apply firstn_nil.
Qed.



(** The first [n] items of the concatenation of non-empty groups are among
    the first [n] groups. *)
Lemma firstn_concat_firstn (n : nat) (X : list (list A)) :
  Forall (fun b => b <> []) X ->
  firstn n (concat (firstn n X)) = firstn n (concat X).
Proof.
  intros HX. revert n. induction HX as [|b X Hb _ IH]; intros n.
  - now rewrite firstn_nil.
  - destruct n as [|n]; [reflexivity|]. cbn [firstn concat].
    destruct b as [|a b]; [contradiction|].
    cbn [app firstn]. f_equal.
    rewrite !firstn_app. f_equal.
    destruct (Nat.le_gt_cases n (length b)) as [Hle|Hgt].
    + replace (n - length b)%nat with 0%nat by lia. reflexivity.
    + assert (Hpre : forall Y : list A,
                firstn (n - length b) Y =
                firstn (n - length b) (firstn n Y)).
      { intros Y. rewrite firstn_firstn. f_equal. lia. }
      rewrite (Hpre (concat (firstn n X))), (Hpre (concat X)).
      now rewrite IH.
Qed.

Lemma concat_repeat_concat (X : list (list A)) (n : nat) :
  concat (concat (List.repeat X n)) = concat (List.repeat (concat X) n).
Proof.
  induction n as [|n IH]; simpl; [reflexivity|].
  now rewrite concat_app, IH.
Qed.

Lemma Forall_concat_repeat (P : list A -> Prop) (X : list (list A)) (n : nat) :
  Forall P X -> Forall P (concat (List.repeat X n)).
Proof.
  intros H. induction n as [|n IH]; simpl; [constructor|].
  apply Forall_app. now split.
Qed.

(** The items of the first [n] batches of a repeated dataset, cut to [n]
    items, are the first [n] items of the repeated pass. *)
Lemma cycle_batches (n : nat) (X : list (list A)) :
  Forall (fun b => b <> []) X ->
  firstn n (concat (Dataset.cycle n X)) = Dataset.cycle n (concat X).
Proof.
  intros HX. unfold Dataset.cycle.
  rewrite firstn_concat_firstn by (now apply Forall_concat_repeat).
  now rewrite concat_repeat_concat.
Qed.

Lemma in_firstn (n : nat) (l : list A) (a : A) :
  In a (firstn n l) -> In a l.
Proof.
  intros H. rewrite <- (firstn_skipn n l). apply in_or_app. now left.
Qed.

Lemma cycle_incl (n : nat) (p : list A) (a : A) :
  In a (Dataset.cycle n p) -> In a p.
Proof.
  unfold Dataset.cycle. intros H. apply in_firstn in H.
  apply in_concat in H. destruct H as (q & Hq & Ha).
  apply repeat_spec in Hq. now subst q.
Qed.
End Datasets.

Lemma cycle_map {A B : Type} (f : A -> B) (n : nat) (p : list A) :
  Dataset.cycle n (map f p) = map f (Dataset.cycle n p).
Proof.
  unfold Dataset.cycle. rewrite <- firstn_map, concat_map. f_equal. f_equal.
  induction n as [|n IH]; simpl; [reflexivity | now rewrite IH].
Qed.

Lemma fst_split_map {A B : Type} (l : list (A * B)) :
  fst (split l) = map fst l.
Proof.
  induction l as [|[a b] l IH]; simpl; [reflexivity|].
  destruct (split l) as [la lb]. simpl in *. now rewrite IH.
Qed.

Lemma map_fst_combine {A B : Type} (la : list A) (lb : list B) :
  map fst (combine la lb) = firstn (length lb) la.
Proof.
  revert lb. induction la as [|a la IH]; intros [|b lb]; simpl; auto.
  now rewrite IH.
Qed.

(** ** Building the cache from the eigenpairs *)

Section CacheBuild.
Local Open Scope R_scope.

Variables (vals : vector) (U : matrix) (N k : nat).
Hypothesis HU : shape2 N k U.
Hypothesis Hvals : length vals = k.

Let slice (s : R) : result matrix :=
  Np.dot U (Np.diag (map (fun ev => exp (- s * ev)) vals)).

Lemma slice_ok (s : R) :
  exists M, slice s = Ok M /\ shape2 N k M /\
    forall i j, (i < N)%nat -> (j < k)%nat ->
      entry M i j = entry U i j * exp (- s * nth j vals 0).
Proof.
  destruct (@dot_diag U (map (fun ev => exp (- s * ev)) vals) N k HU)
    as (M & HM & Hsh & Hent); [now rewrite length_map|].
  exists M. split; [exact HM|]. split; [exact Hsh|].
  intros i j Hi Hj. rewrite (Hent i j Hi Hj). f_equal.
  rewrite (nth_indep _ 0 ((fun ev => exp (- s * ev)) 0))
    by (rewrite length_map; lia).
  now rewrite (map_nth (fun ev => exp (- s * ev))).
Qed.

(** The cache exists as soon as there is at least one scale. *)
Lemma wavelet_cache_ok (scales : vector) :
  scales <> [] -> exists T, wavelet_cache vals U scales = Ok T.
Proof.
  intros Hne. unfold wavelet_cache.
  destruct (mapM_total slice scales) as (Ms & HMs).
  { intros s _. destruct (slice_ok s) as (M & HM & _). now exists M. }
  fold slice. rewrite HMs. simpl.
  apply mapM_Forall2, Forall2_length_eq in HMs.
  destruct Ms as [|M0 Ms]; [destruct scales; [contradiction|discriminate]|].
  eexists; reflexivity.
Qed.

(** The cache has shape (N, k, number of scales), and its slice [c] is
    [U . diag(exp(- scales[c] * eigenvalues))]. *)
Lemma wavelet_cache_inv (scales : vector) (T : tensor3) :
  wavelet_cache vals U scales = Ok T ->
  scales <> [] /\ shape3 N k (length scales) T /\
  forall i j c, (i < N)%nat -> (j < k)%nat -> (c < length scales)%nat ->
    entry3 T i j c = entry U i j * exp (- nth c scales 0 * nth j vals 0).
Proof.
  unfold wavelet_cache. fold slice. intros H.
  apply bind_ok in H. destruct H as (Ms & HMs & HT).
  apply mapM_Forall2 in HMs.
  pose proof (Forall2_length_eq HMs) as Hlen.
  assert (Hshapes : Forall (shape2 N k) Ms).
  { clear HT Hlen. induction HMs as [|s M ss Ms Hs _ IH]; constructor; auto.
    destruct (slice_ok s) as (M' & HM' & Hsh & _). congruence. }
  destruct (dstack_shape Hshapes HT) as (Hne & Hsh & Hent).
  split; [|split].
  - intros ->. destruct Ms; [contradiction | discriminate].
  - now rewrite Hlen.
  - intros i j c Hi Hj Hc. rewrite (Hent i j c Hi Hj).
    pose proof (Forall2_nth 0 [] HMs Hc) as Hslice. cbv beta in Hslice.
    destruct (slice_ok (nth c scales 0)) as (M' & HM' & _ & Hent').
    rewrite Hslice in HM'. injection HM' as <-. now apply Hent'.
Qed.
End CacheBuild.

(** ** The generator *)

Section Generator.
Local Open Scope R_scope.

Variable node : Type.
Variable node_eq_dec : forall a b : node, {a = b} + {a <> b}.
Variable eigs : matrix -> Z -> result (list complex * list (list complex)).

Local Abbreviation dict_get := (dict_get node_eq_dec).
Local Abbreviation dict_set := (dict_set node_eq_dec).
Local Abbreviation dict_of := (dict_of node_eq_dec).
Local Abbreviation init := (__init__ node_eq_dec eigs).
Local Abbreviation flow := (flow node_eq_dec).

(** *** The node index mapping *)

Lemma dict_get_set (d : dict node) (key key' : node) (val : nat) :
  dict_get (dict_set d key val) key' =
  if node_eq_dec key' key then Some val else dict_get d key'.
Proof.
  induction d as [|[k v] d IH]; simpl.
  - reflexivity.
  - destruct (node_eq_dec key k) as [->|Hne]; simpl.
    + destruct (node_eq_dec key' k); reflexivity.
    + destruct (node_eq_dec key' k) as [->|Hne'].
      * destruct (node_eq_dec k key); [congruence | reflexivity].
      * exact IH.
Qed.

Lemma dict_fold_none (pairs : list (node * nat)) (d : dict node) (key : node) :
  dict_get (fold_left (fun d kv => dict_set d (fst kv) (snd kv)) pairs d) key
    = None <->
  dict_get d key = None /\ ~ In key (map fst pairs).
Proof.
  revert d. induction pairs as [|[k v] pairs IH]; intros d; simpl.
  - tauto.
  - rewrite IH, dict_get_set. simpl.
    destruct (node_eq_dec key k) as [->|Hne]; split.
    + intros [H _]. discriminate.
    + intros [_ H]. exfalso. apply H. now left.
    + intros [H1 H2]. split; [exact H1|]. intros [Heq|Hin]; auto.
    + intros [H1 H2]. split; [exact H1|]. intros Hin. apply H2. now right.
Qed.

Lemma map_fst_combine_seq (l : list node) (s : nat) :
  map fst (combine l (seq s (length l))) = l.
Proof.
  rewrite map_fst_combine, length_seq. apply firstn_all.
Qed.

(** A node id has no index exactly when it is not in the node list. *)
Lemma node_index_none (l : list node) (key : node) :
  dict_get (dict_of (combine l (seq 0 (length l)))) key = None <->
  ~ In key l.
Proof.
  unfold dict_of. rewrite dict_fold_none, map_fst_combine_seq.
  simpl. tauto.
Qed.

(** *** What a successful construction tells *)

Lemma init_inv (G : StellarGraph node) (sc : scales_arg) (ns nev : Z)
    (gen : GraphWaveGenerator node) :
  init G sc ns nev = Ok gen ->
  exists t vals vecs,
    node_types G = [t] /\
    eigs (laplacian_of (to_adjacency_matrix G None))
         (if (nev =? -1)%Z
          then (Z.of_nat (length (laplacian_of (to_adjacency_matrix G None)))
                - 2)%Z
          else nev) = Ok (vals, vecs) /\
    match sc with
    | Auto => auto_scales (map real vals) ns
    | Explicit values => Ok values
    end = Ok (scales gen) /\
    wavelet_cache (map real vals) (map (map real) vecs) (scales gen)
      = Ok (Ues gen) /\
    node_list gen = nodes_of_type G t /\
    node_index_dict gen =
      dict_of (combine (nodes_of_type G t)
                       (seq 0 (length (nodes_of_type G t)))) /\
    eigen_vals gen = map real vals /\
    eigen_vecs gen = map (map real) vecs.
Proof.
  unfold __init__. intros H.
  destruct (node_types G) as [|t [|t' ts]] eqn:Htypes; simpl in H;
    try discriminate.
  apply bind_ok in H. destruct H as ([vals vecs] & Heigs & H).
  apply bind_ok in H. destruct H as (sel & Hsel & H).
  apply bind_ok in H. destruct H as (T & HT & H).
  injection H as <-. simpl.
  exists t, vals, vecs. repeat split; assumption.
Qed.

Lemma length_laplacian (adj : matrix) :
  length (laplacian_of adj) = length adj.
Proof.
  unfold laplacian_of, Np.sub. rewrite length_zip_with.
  destruct (diag_shape (Np.sum_axis1 adj)) as [-> _].
  unfold Np.sum_axis1. rewrite length_map. lia.
Qed.

Lemma shape2_map_map {A B : Type} (f : A -> B) (n k : nat) (M : list (list A)) :
  shape2 n k M -> shape2 n k (map (map f) M).
Proof.
  intros [Hn HM]. split; [now rewrite length_map|].
  apply Forall_forall. intros r Hr. apply in_map_iff in Hr.
  destruct Hr as (r0 & <- & Hr0). rewrite Forall_forall in HM.
  rewrite length_map. now apply HM.
Qed.

(** The shapes of a generator: [N] nodes, [k] eigenpairs, [S] scales, all
    positive, with eigenvectors of shape (N, k) and a cache of shape
    (N, k, S). *)
Lemma init_shapes (G : StellarGraph node) (sc : scales_arg) (ns nev : Z)
    (gen : GraphWaveGenerator node) :
  eigs_contract eigs ->
  init G sc ns nev = Ok gen ->
  let N := length (to_adjacency_matrix G None) in
  let k := length (eigen_vals gen) in
  let S := length (scales gen) in
  (0 < N)%nat /\ (0 < k)%nat /\ (k < N - 1)%nat /\ (0 < S)%nat /\
  shape2 N k (eigen_vecs gen) /\
  shape3 N k S (Ues gen) /\
  forall i j c, (i < N)%nat -> (j < k)%nat -> (c < S)%nat ->
    entry3 (Ues gen) i j c =
    entry (eigen_vecs gen) i j *
    exp (- nth c (scales gen) 0 * nth j (eigen_vals gen) 0).
Proof.
  intros Hcontract Hinit.
  destruct (init_inv _ _ _ _ Hinit)
    as (t & vals & vecs & _ & Heigs & _ & HT & _ & _ & Hvals & Hvecs).
  destruct (Hcontract _ _ _ _ Heigs) as (Hk & Hlen & Hsh).
  clear Heigs. revert Hk Hlen Hsh.
  generalize (if (nev =? -1)%Z
              then (Z.of_nat
                      (length (laplacian_of (to_adjacency_matrix G None)))
                    - 2)%Z
              else nev).
  intros kz Hk Hlen Hsh. rewrite length_laplacian in Hk, Hsh.
  rewrite Hvals, Hvecs in *. cbv zeta.
  set (N := length (to_adjacency_matrix G None)) in *.
  assert (Hklen : length (map real vals) = length (map real vals)) by reflexivity.
  assert (HU : shape2 N (length (map real vals)) (map (map real) vecs)).
  { apply shape2_map_map. now rewrite length_map, Hlen. }
  destruct (@wavelet_cache_inv _ _ _ _ HU Hklen _ _ HT)
    as (Hne & HshT & Hent).
  rewrite length_map, Hlen in *.
  split; [lia|]. split; [lia|]. split; [lia|].
  split; [destruct (scales gen); [contradiction | simpl; lia]|].
  split; [exact HU|]. split; [exact HshT|]. exact Hent.
Qed.

(** *** What [flow] returns *)

Lemma Forall2_compose {A B C : Type} (P : A -> B -> Prop) (Q : B -> C -> Prop)
    (la : list A) (lb : list B) (lc : list C) :
  Forall2 P la lb -> Forall2 Q lb lc ->
  Forall2 (fun a c => exists b, P a b /\ Q b c) la lc.
Proof.
  intros H. revert lc. induction H as [|a b la lb Hab _ IH]; intros lc HQ;
    inversion HQ; subst; constructor; eauto.
Qed.

Lemma Forall2_map_r {A B C : Type} (P : A -> C -> Prop) (f : B -> C)
    (la : list A) (lb : list B) :
  Forall2 (fun a b => P a (f b)) la lb -> Forall2 P la (map f lb).
Proof. induction 1; simpl; constructor; auto. Qed.

Lemma Forall2_In_r {A B : Type} (P : A -> B -> Prop) (la : list A)
    (lb : list B) (b : B) :
  Forall2 P la lb -> In b lb -> exists a, In a la /\ P a b.
Proof.
  induction 1 as [|a0 b0 la lb H0 _ IH]; simpl; intros Hin; [contradiction|].
  destruct Hin as [->|Hin]; [exists a0; auto|].
  destruct (IH Hin) as (a & Ha & HP). exists a; auto.
Qed.

Lemma Forall2_In_l {A B : Type} (P : A -> B -> Prop) (la : list A)
    (lb : list B) (a : A) :
  Forall2 P la lb -> In a la -> exists b, In b lb /\ P a b.
Proof.
  induction 1 as [|a0 b0 la lb H0 _ IH]; simpl; intros Hin; [contradiction|].
  destruct Hin as [->|Hin]; [exists b0; auto|].
  destruct (IH Hin) as (b & Hb & HP). exists b; auto.
Qed.

Lemma to_int64_inv (n m : Z) :
  Dataset.to_int64 n = Ok m -> m = n /\ (- 2 ^ 63 <= n < 2 ^ 63)%Z.
Proof.
  unfold Dataset.to_int64.
  destruct (Z.leb_spec (- 2 ^ 63) n), (Z.ltb_spec n (2 ^ 63)); simpl;
    intros Hm; try discriminate.
  injection Hm as <-. split; [reflexivity | split; assumption].
Qed.

Lemma to_int64_ok (n : Z) :
  (- 2 ^ 63 <= n < 2 ^ 63)%Z -> Dataset.to_int64 n = Ok n.
Proof.
  intros [Hlo Hhi]. unfold Dataset.to_int64.
  destruct (Z.leb_spec (- 2 ^ 63) n), (Z.ltb_spec n (2 ^ 63)); simpl;
    try reflexivity; lia.
Qed.

Lemma map_parallel_inv {A B : Type} (f : A -> B) (n : Z) (d : Dataset.t A)
    (d' : Dataset.t B) :
  Dataset.map_parallel f n d = Ok d' ->
  d' = Dataset.map f d /\ (n = -1 \/ 1 <= n < 2 ^ 63)%Z.
Proof.
  unfold Dataset.map_parallel. intros Hd.
  apply bind_ok in Hd. destruct Hd as (m & Hm & Hd).
  apply to_int64_inv in Hm. destruct Hm as (-> & Hrange).
  destruct (Z.eqb_spec n (-1)) as [->|Hne]; simpl in Hd.
  - injection Hd as <-. split; [reflexivity | now left].
  - destruct (Z.leb_spec 1 n); [|discriminate].
    injection Hd as <-. split; [reflexivity | right; lia].
Qed.

Lemma map_parallel_ok {A B : Type} (f : A -> B) (n : Z) (d : Dataset.t A) :
  (n = -1 \/ 1 <= n < 2 ^ 63)%Z ->
  Dataset.map_parallel f n d = Ok (Dataset.map f d).
Proof.
  intros Hn. unfold Dataset.map_parallel.
  assert (H63 : (0 < 2 ^ 63)%Z) by reflexivity.
  rewrite to_int64_ok by lia. cbn [bind].
  destruct Hn as [->|Hn]; [reflexivity|].
  destruct (Z.eqb_spec n (-1)); [reflexivity|].
  destruct (Z.leb_spec 1 n); [reflexivity | lia].
Qed.

(** One pass of the pipeline holds the embeddings of the node ids, in the
    order of [node_ids]. *)
Lemma embedding_dataset_inv (self : GraphWaveGenerator node)
    (ids : list node) (ts : vector) (thr : Z) (d : Dataset.t (list R)) :
  embedding_dataset node_eq_dec self ids ts thr = Ok d ->
  exists pass, d = Dataset.Once pass /\
    Forall2 (node_embedding node_eq_dec self ts) ids pass.
Proof.
  unfold embedding_dataset, _node_lookup, vectorize_get_int64, Np.take_rows.
  intros H.
  apply bind_ok in H. destruct H as (idx & Hidx & H).
  apply bind_ok in H. destruct H as (rows & Hrows & H).
  apply bind_ok in H. destruct H as (samples & Hsamples & H).
  apply map_parallel_inv in Hsamples. destruct Hsamples as (-> & _).
  apply map_parallel_inv in H. destruct H as (-> & _).
  eexists. split; [reflexivity|].
  rewrite map_map. apply Forall2_map_r.
  apply mapM_Forall2 in Hidx. apply mapM_Forall2 in Hrows.
  pose proof (Forall2_compose Hidx Hrows) as Hboth.
  eapply Forall2_impl; [|exact Hboth].
  intros id u (i & Hi & Hu). cbv beta in Hi, Hu.
  exists i, u.
  destruct (dict_get (node_index_dict self) id) as [i'|]; [|discriminate].
  injection Hi as ->.
  destruct (nth_error (eigen_vecs self) i) as [u'|]; [|discriminate].
  injection Hu as ->. auto.
Qed.

(** The pipeline is built only for a valid number of parallel calls. *)
Lemma embedding_dataset_threads (self : GraphWaveGenerator node)
    (ids : list node) (ts : vector) (thr : Z) (d : Dataset.t (list R)) :
  embedding_dataset node_eq_dec self ids ts thr = Ok d ->
  (thr = -1 \/ 1 <= thr < 2 ^ 63)%Z.
Proof.
  unfold embedding_dataset. intros H.
  apply bind_ok in H. destruct H as (idx & _ & H).
  apply bind_ok in H. destruct H as (rows & _ & H).
  apply bind_ok in H. destruct H as (samples & Hsamples & _).
  now apply map_parallel_inv in Hsamples.
Qed.

(** An id without index makes the lookup, hence [flow], raise. *)
Lemma lookup_missing (self : GraphWaveGenerator node) (ids : list node)
    (id : node) :
  In id ids -> dict_get (node_index_dict self) id = None ->
  _node_lookup node_eq_dec self ids = Err (none_to_int64).
Proof.
  intros Hin Hnone. unfold _node_lookup, vectorize_get_int64.
  apply mapM_fails with id; [|exact Hin|now rewrite Hnone].
  intros x e' Hx. destruct (dict_get (node_index_dict self) x);
    [discriminate | now injection Hx].
Qed.

Lemma flow_missing {T : Type} (self : GraphWaveGenerator node)
    (ids : list node) (id : node) (ts : vector) (bs : Z)
    (tg : option (list T)) (rep : bool) (thr : Z) :
  In id ids -> dict_get (node_index_dict self) id = None ->
  flow self ids ts bs tg rep thr = Err (none_to_int64).
Proof.
  intros Hin Hnone. unfold flow, embedding_dataset.
  now rewrite (lookup_missing self ids id Hin Hnone).
Qed.

Lemma batch_once_inv {A : Type} (bs : Z) (l : list A) (d : Dataset.t (list A)) :
  Dataset.batch bs (Dataset.Once l) = Ok d ->
  (1 <= bs)%Z /\ d = Dataset.Once (Dataset.chunks (Z.to_nat bs) l).
Proof.
  unfold Dataset.batch. intros Hd.
  apply bind_ok in Hd. destruct Hd as (m & Hm & Hd).
  apply to_int64_inv in Hm. destruct Hm as (-> & _).
  destruct (Z.ltb_spec bs 1) as [Hlt|Hge]; [discriminate|].
  injection Hd as <-. split; [lia | reflexivity].
Qed.

Lemma batch_once_range {A : Type} (bs : Z) (d : Dataset.t A)
    (d' : Dataset.t (list A)) :
  Dataset.batch bs d = Ok d' -> (1 <= bs < 2 ^ 63)%Z.
Proof.
  unfold Dataset.batch. intros Hd.
  apply bind_ok in Hd. destruct Hd as (m & Hm & Hd).
  apply to_int64_inv in Hm. destruct Hm as (-> & Hrange).
  destruct (Z.ltb_spec bs 1) as [Hlt|Hge]; [discriminate | lia].
Qed.

(** The batches of a dataset returned by [flow]: non-empty groups whose
    concatenation is one pass (cut to the number of targets, if any),
    iterated once or for ever according to [repeat]. *)
Lemma flow_inv {T : Type} (self : GraphWaveGenerator node)
    (ids : list node) (ts : vector) (bs : Z) (tg : option (list T))
    (rep : bool) (thr : Z) (fd : flow_dataset T) :
  flow self ids ts bs tg rep thr = Ok fd ->
  exists pass EB,
    Forall2 (node_embedding node_eq_dec self ts) ids pass /\
    (1 <= bs)%Z /\
    Forall (fun b => b <> []) EB /\
    concat EB = match tg with
                | None => pass
                | Some t => firstn (length t) pass
                end /\
    embedding_batches fd =
      if rep then Dataset.Forever EB else Dataset.Once EB.
Proof.
  unfold flow. intros H.
  apply bind_ok in H. destruct H as (d & Hd & H).
  apply embedding_dataset_inv in Hd. destruct Hd as (pass & -> & Hpass).
  exists pass. destruct tg as [t|].
  - cbn [Dataset.zip Dataset.from_tensor_slices Dataset.cache] in H.
    apply bind_ok in H. destruct H as (batched & Hb & H).
    apply batch_once_inv in Hb. destruct Hb as (Hbs & ->).
    set (X := Dataset.chunks (Z.to_nat bs) (combine pass t)) in *.
    assert (HX : Forall (fun b => b <> []) X)
      by (apply chunks_nonempty; lia).
    assert (HcX : concat X = combine pass t)
      by (apply chunks_concat; lia).
    exists (map fst (map (@split (list R) T) X)).
    split; [exact Hpass|]. split; [exact Hbs|].
    assert (Hmap : map fst (map (@split (list R) T) X) = map (map fst) X).
    { rewrite map_map. apply map_ext. intros b. apply fst_split_map. }
    split; [|split].
    + rewrite Hmap. apply Forall_forall. intros b Hb.
      apply in_map_iff in Hb. destruct Hb as (b0 & <- & Hb0).
      rewrite Forall_forall in HX. specialize (HX b0 Hb0).
      destruct b0; [contradiction | discriminate].
    + rewrite Hmap, <- concat_map, HcX. apply map_fst_combine.
    + destruct rep; injection H as <-; reflexivity.
  - cbn [Dataset.cache] in H.
    apply bind_ok in H. destruct H as (batched & Hb & H).
    apply batch_once_inv in Hb. destruct Hb as (Hbs & ->).
    exists (Dataset.chunks (Z.to_nat bs) pass).
    split; [exact Hpass|]. split; [exact Hbs|].
    split; [apply chunks_nonempty; lia|].
    split; [apply chunks_concat; lia|].
    destruct rep; injection H as <-; reflexivity.
Qed.

(** Every embedding pulled from the dataset is the embedding of one of the
    node ids. *)
Lemma pull_incl {T : Type} (self : GraphWaveGenerator node)
    (ids : list node) (ts : vector) (bs : Z) (tg : option (list T))
    (rep : bool) (thr : Z) (fd : flow_dataset T) (n : nat) (e : list R) :
  flow self ids ts bs tg rep thr = Ok fd ->
  In e (pull n fd) ->
  exists id, In id ids /\ node_embedding node_eq_dec self ts id e.
Proof.
  intros Hflow Hin. apply flow_inv in Hflow.
  destruct Hflow as (pass & EB & Hpass & _ & _ & Hcat & Hfd).
  unfold pull in Hin. rewrite Hfd in Hin. apply in_firstn in Hin.
  apply in_concat in Hin. destruct Hin as (b & Hb & He).
  assert (HbEB : In b EB).
  { destruct rep; simpl in Hb;
      [now apply cycle_incl in Hb | now apply in_firstn in Hb]. }
  assert (Hcat' : In e (concat EB)) by (apply in_concat; eauto).
  assert (Hp : In e pass).
  { rewrite Hcat in Hcat'. destruct tg; [now apply in_firstn in Hcat'|auto]. }
  eapply Forall2_In_r; eassumption.
Qed.

(** *** Construction, forwards *)

Lemma wavelet_cache_nonempty (vals : vector) (U : matrix) (sel : vector)
    (T : tensor3) :
  wavelet_cache vals U sel = Ok T -> sel <> [].
Proof.
  unfold wavelet_cache. intros H.
  apply bind_ok in H. destruct H as (Ms & HMs & HT).
  apply mapM_Forall2, Forall2_length_eq in HMs.
  apply dstack_ok in HT. destruct HT as [Hne _].
  intros ->. destruct Ms; [contradiction | discriminate].
Qed.

Lemma init_intro (G : StellarGraph node) (sc : scales_arg) (ns nev : Z)
    (t : string) vals vecs (sel : vector) (T : tensor3) :
  node_types G = [t] ->
  eigs (laplacian_of (to_adjacency_matrix G None))
       (if (nev =? -1)%Z
        then (Z.of_nat (length (laplacian_of (to_adjacency_matrix G None)))
              - 2)%Z
        else nev) = Ok (vals, vecs) ->
  match sc with
  | Auto => auto_scales (map real vals) ns
  | Explicit values => Ok values
  end = Ok sel ->
  wavelet_cache (map real vals) (map (map real) vecs) sel = Ok T ->
  init G sc ns nev =
  Ok {| node_list := nodes_of_type G t;
        Aadj := to_adjacency_matrix G (Some (nodes_of_type G t));
        node_index_dict :=
          dict_of (combine (nodes_of_type G t)
                           (seq 0 (length (nodes_of_type G t))));
        eigen_vals := map real vals;
        eigen_vecs := map (map real) vecs;
        scales := sel;
        Ues := T |}.
Proof.
  intros Htypes Heigs Hsel HT. unfold __init__.
  rewrite Htypes. cbn [length Nat.ltb Nat.leb first_item bind].
  rewrite Heigs. cbn [bind]. rewrite Hsel. cbn [bind].
  rewrite HT. reflexivity.
Qed.

Lemma auto_scales_spec (vals : vector) (ns : Z) (ys : vector) :
  auto_scales vals ns = Ok ys ->
  exists e2 eN,
    (In e2 vals /\ 0 < e2 /\ forall v, In v vals -> 0 < v -> e2 <= v) /\
    (In eN vals /\ forall v, In v vals -> v <= eN) /\
    (0 <= ns)%Z /\
    length ys = Z.to_nat ns /\
    forall i, (i < Z.to_nat ns)%nat ->
      nth i ys 0 =
      - ln 0.95 / sqrt (eN * e2) +
      INR i * ((- ln 0.85 / sqrt (eN * e2) - - ln 0.95 / sqrt (eN * e2))
               / INR (Z.to_nat ns - 1)).
Proof.
  unfold auto_scales. intros H.
  apply bind_ok in H. destruct H as (e2 & He2 & H).
  apply bind_ok in H. destruct H as (eN & HeN & H).
  apply min_spec in He2. destruct He2 as [Hin2 Hle2].
  apply max_spec in HeN. destruct HeN as [HinN HleN].
  apply filter_In in Hin2. destruct Hin2 as [Hin2 Hpos2].
  apply gt0_true in Hpos2.
  apply linspace_spec in H. destruct H as (Hns & Hlen & Hnth).
  exists e2, eN. split; [split; [exact Hin2|split; [exact Hpos2|]]|].
  - intros v Hv Hvpos. apply Hle2. apply filter_In. split; [exact Hv|].
    now apply gt0_true.
  - split; [split; assumption|]. split; [exact Hns|].
    split; [exact Hlen | exact Hnth].
Qed.

Lemma auto_scales_ok (vals : vector) (ns : Z) :
  (exists v, In v vals /\ 0 < v) -> (0 <= ns)%Z ->
  exists ys, auto_scales vals ns = Ok ys.
Proof.
  intros (v & Hv & Hpos) Hns. unfold auto_scales.
  assert (Hf : In v (filter Np.gt0 vals))
    by (apply filter_In; split; [exact Hv | now apply gt0_true]).
  destruct (filter Np.gt0 vals) as [|x xs]; [contradiction|].
  destruct vals as [|y vals']; [contradiction|].
  cbn [Np.min Np.max bind]. now apply linspace_ok.
Qed.

(** Without a positive eigenvalue the automatic selection raises. *)
Lemma auto_scales_no_positive (vals : vector) (ns : Z) :
  Forall (fun x => ~ 0 < x) vals ->
  auto_scales vals ns = Err Np.zero_size_minimum.
Proof.
  intros H. unfold auto_scales. now rewrite (filter_gt0_nil H).
Qed.

(** *** The claims about shapes *)

Lemma einsum_entry (T : tensor3) (x : vector) (N k S i c : nat) :
  shape3 N k S T -> (0 < k)%nat -> (i < N)%nat -> (c < S)%nat ->
  entry (Tf.einsum_ijk_j_ik T x) i c =
  Np.inner (Np.column c (nth i T [])) x.
Proof.
  intros [HN HT] Hk Hi Hc. unfold entry, Tf.einsum_ijk_j_ik.
  set (f := fun M : matrix =>
              map (fun k0 => Np.inner (Np.column k0 M) x) (seq 0 (ncols M))).
  rewrite (nth_indep _ [] (f [])) by (rewrite length_map; lia).
  rewrite (map_nth f). unfold f.
  assert (HM : shape2 k S (nth i T [])).
  { rewrite Forall_forall in HT. apply HT, nth_In. lia. }
  rewrite (shape2_ncols HM Hk). now rewrite nth_map_seq.
Qed.

(** C1, as amended.  For a generator built over [N] nodes with [k]
    eigenvectors and [S] scales, the cache has shape (N, k, S), the
    eigenvector row of a queried node has length [k], and its contraction
    with the cache over the eigenvector axis, the tensor handed to the
    characteristic function sampler, has shape (N, S): [N] draws per scale,
    one per node of the graph, with [k < N]. *)
Theorem wavelet_samples_shape (G : StellarGraph node) (sc : scales_arg)
    (ns nev : Z) (gen : GraphWaveGenerator node) :
  eigs_contract eigs ->
  init G sc ns nev = Ok gen ->
  let N := length (to_adjacency_matrix G None) in
  let k := length (eigen_vals gen) in
  let S := length (scales gen) in
  shape3 N k S (Ues gen) /\ (k < N)%nat /\
  forall id i u,
    dict_get (node_index_dict gen) id = Some i ->
    nth_error (eigen_vecs gen) i = Some u ->
    length u = k /\
    shape2 N S (Tf.einsum_ijk_j_ik (Ues gen) u) /\
    forall r c, (r < N)%nat -> (c < S)%nat ->
      entry (Tf.einsum_ijk_j_ik (Ues gen) u) r c =
      Np.inner (Np.column c (nth r (Ues gen) [])) u.
Proof.
  intros Hcontract Hinit.
  destruct (init_shapes _ _ _ _ Hcontract Hinit)
    as (HN & Hk & HkN & HS & HU & HT & _).
  cbv zeta. split; [exact HT|]. split; [lia|].
  intros id i u _ Hu. split; [|split].
  - destruct HU as [_ HU]. rewrite Forall_forall in HU.
    apply HU. eapply nth_error_In. exact Hu.
  - now apply einsum_shape with (k := length (eigen_vals gen)).
  - intros r c Hr Hc.
    now apply einsum_entry
      with (N := length (to_adjacency_matrix G None))
           (k := length (eigen_vals gen)) (S := length (scales gen)).
Qed.

(** C2.  Every embedding produced by a dataset that [flow] returns belongs
    to one of the queried nodes and is computed from the samples of that
    node, the contraction of the cache with its eigenvector row: it is the
    flattening of the mean-cosine block stacked on the mean-sine block, each
    block having one row per sample point and one column per scale, so that
    the entry at [a * S + c] is the mean over the [N] samples of
    [cos(x * ts[a])] at scale [c] and the entry at [m * S + a * S + c] the
    mean of [sin(x * ts[a])]; its length is 2 * m * S for [m] sample points
    and [S] scales, whichever node it belongs to. *)
Theorem embedding_length_2mS {T : Type} (G : StellarGraph node)
    (sc : scales_arg) (ns nev : Z) (gen : GraphWaveGenerator node)
    (ids : list node) (ts : vector) (bs : Z) (tg : option (list T))
    (rep : bool) (thr : Z) (fd : flow_dataset T) (n : nat) (e : vector) :
  eigs_contract eigs ->
  init G sc ns nev = Ok gen ->
  flow gen ids ts bs tg rep thr = Ok fd ->
  In e (pull n fd) ->
  length e = (2 * length ts * length (scales gen))%nat /\
  exists id i u,
    In id ids /\
    dict_get (node_index_dict gen) id = Some i /\
    nth_error (eigen_vecs gen) i = Some u /\
    let N := length (to_adjacency_matrix G None) in
    let m := length ts in
    let S := length (scales gen) in
    let samples := Tf.einsum_ijk_j_ik (Ues gen) u in
    shape2 N S samples /\
    e = Tf.flatten (Tf.concat_axis0 (mean_response cos samples ts)
                                    (mean_response sin samples ts)) /\
    shape2 m S (mean_response cos samples ts) /\
    shape2 m S (mean_response sin samples ts) /\
    forall a c, (a < m)%nat -> (c < S)%nat ->
      nth (a * S + c) e 0 =
        Np.sum (map (fun row => cos (nth c row 0 * nth a ts 0)) samples)
        / INR N /\
      nth (m * S + a * S + c) e 0 =
        Np.sum (map (fun row => sin (nth c row 0 * nth a ts 0)) samples)
        / INR N.
Proof.
  intros Hcontract Hinit Hflow Hin.
  destruct (init_shapes _ _ _ _ Hcontract Hinit)
    as (HN & Hk & _ & _ & _ & HT & _).
  eapply pull_incl in Hin; [|exact Hflow].
  destruct Hin as (id & Hid & i & u & Hi & Hu & ->).
  pose proof (einsum_shape u HT Hk) as Hsamples.
  split; [now apply ecf_length with (ns := length (to_adjacency_matrix G None))|].
  exists id, i, u. split; [exact Hid|]. split; [exact Hi|].
  split; [exact Hu|]. cbv zeta.
  pose proof (shape2_ncols Hsamples HN) as Hcols.
  split; [exact Hsamples|]. split; [|split; [|split]].
  - rewrite (ecf_blocks ts Hsamples). unfold Tf.flatten, Tf.concat_axis0.
    symmetry. apply concat_app.
  - rewrite <- Hcols. apply mean_response_shape.
  - rewrite <- Hcols. apply mean_response_shape.
  - intros a c Ha Hc.
    destruct (ecf_slots ts Hsamples HN Ha Hc) as [Hcos Hsin].
    rewrite Hcos, Hsin. unfold Tf.mean. rewrite !length_map.
    destruct Hsamples as [-> _]. split; reflexivity.
Qed.

(** *** The claims about construction *)

(** C3, as amended.  With [scales = "auto"], [e2] is the smallest strictly
    positive eigenvalue and [eN] the largest one; with
    [min_scale = -ln(0.95)/sqrt(eN*e2)] and
    [max_scale = -ln(0.85)/sqrt(eN*e2)], the generator holds exactly
    [num_scales] scales, evenly spaced with step
    [(max_scale - min_scale) / (num_scales - 1)], the first one being
    [min_scale]; the last one is [max_scale] when there are at least two of
    them. *)
Theorem auto_scales_evenly_spaced (G : StellarGraph node) (ns nev : Z)
    (gen : GraphWaveGenerator node) :
  init G Auto ns nev = Ok gen ->
  exists e2 eN,
    (In e2 (eigen_vals gen) /\ 0 < e2 /\
     forall v, In v (eigen_vals gen) -> 0 < v -> e2 <= v) /\
    (In eN (eigen_vals gen) /\ forall v, In v (eigen_vals gen) -> v <= eN) /\
    let min_scale := - ln 0.95 / sqrt (eN * e2) in
    let max_scale := - ln 0.85 / sqrt (eN * e2) in
    let n := Z.to_nat ns in
    (1 <= ns)%Z /\
    length (scales gen) = n /\
    (forall i, (i < n)%nat ->
       nth i (scales gen) 0 =
       min_scale + INR i * ((max_scale - min_scale) / INR (n - 1))) /\
    nth 0 (scales gen) 0 = min_scale /\
    ((2 <= n)%nat -> nth (n - 1) (scales gen) 0 = max_scale).
Proof.
  intros Hinit.
  destruct (init_inv _ _ _ _ Hinit)
    as (t & vals & vecs & _ & _ & Hsel & HT & _ & _ & Hvals & _).
  apply wavelet_cache_nonempty in HT. rewrite <- Hvals in Hsel.
  apply auto_scales_spec in Hsel.
  destruct Hsel as (e2 & eN & He2 & HeN & Hns & Hlen & Hnth).
  exists e2, eN. split; [exact He2|]. split; [exact HeN|]. cbv zeta.
  assert (Hn : (1 <= Z.to_nat ns)%nat).
  { rewrite <- Hlen. destruct (scales gen); [contradiction | simpl; lia]. }
  split; [lia|]. split; [exact Hlen|]. split; [exact Hnth|].
  revert Hnth.
  generalize (- ln 0.95 / sqrt (eN * e2)) (- ln 0.85 / sqrt (eN * e2)).
  intros a b Hnth. split.
  - rewrite Hnth by lia. simpl INR. ring.
  - intros H2. rewrite Hnth by lia. field.
    apply not_0_INR. lia.
Qed.

(** C4.  With [scales = "auto"], when the eigensolver returns no strictly
    positive eigenvalue the constructor raises: no generator, hence no
    scale, is produced; the exception is the [ValueError] of the minimum of
    an empty array, raised before the scale formula is evaluated. *)
Theorem auto_scales_without_positive_eigenvalue (G : StellarGraph node)
    (ns nev : Z) :
  (forall vals vecs,
     eigs (laplacian_of (to_adjacency_matrix G None))
          (if (nev =? -1)%Z
           then (Z.of_nat
                   (length (laplacian_of (to_adjacency_matrix G None))) - 2)%Z
           else nev) = Ok (vals, vecs) ->
     Forall (fun z => ~ 0 < real z) vals) ->
  raises (init G Auto ns nev) /\
  forall t vals vecs,
    node_types G = [t] ->
    eigs (laplacian_of (to_adjacency_matrix G None))
         (if (nev =? -1)%Z
          then (Z.of_nat
                  (length (laplacian_of (to_adjacency_matrix G None))) - 2)%Z
          else nev) = Ok (vals, vecs) ->
    init G Auto ns nev = Err Np.zero_size_minimum.
Proof.
  intros Hnonpos.
  assert (Hmin : forall t vals vecs,
    node_types G = [t] ->
    eigs (laplacian_of (to_adjacency_matrix G None))
         (if (nev =? -1)%Z
          then (Z.of_nat
                  (length (laplacian_of (to_adjacency_matrix G None))) - 2)%Z
          else nev) = Ok (vals, vecs) ->
    init G Auto ns nev = Err Np.zero_size_minimum).
  { intros t vals vecs Htypes Heigs. unfold __init__.
    rewrite Htypes. cbn [length Nat.ltb Nat.leb first_item bind].
    rewrite Heigs. cbn [bind].
    rewrite auto_scales_no_positive; [reflexivity|].
    specialize (Hnonpos _ _ Heigs). clear Heigs.
    induction Hnonpos; simpl; constructor; auto. }
  split; [|exact Hmin].
  unfold raises.
  destruct (init G Auto ns nev) as [gen|e] eqn:Hinit;
    [|exists e; reflexivity].
  destruct (init_inv _ _ _ _ Hinit)
    as (t & vals & vecs & Htypes & Heigs & _).
  pose proof (Hmin _ _ _ Htypes Heigs) as Herr. congruence.
Qed.

(** C5.  The constructor raises whenever the node-type filter of the graph
    yields no node type ([IndexError], from taking the first type) and
    whenever it yields more than one ([TypeError], from the explicit
    check). *)
Theorem single_node_type_required (G : StellarGraph node) (sc : scales_arg)
    (ns nev : Z) :
  length (node_types G) <> 1%nat ->
  init G sc ns nev =
  Err (if (1 <? length (node_types G))%nat
       then multiple_node_types
       else list_index_out_of_range).
Proof.
  intros Hlen. unfold __init__.
  destruct (node_types G) as [|t [|t' ts]]; simpl in *;
    [reflexivity | lia | reflexivity].
Qed.

(** C8.  The matrix that the constructor builds and hands to the
    eigensolver is [L = diag(rowSums(A)) - A], [A] being the adjacency matrix
    of the graph: the result of construction depends on the eigensolver only
    through its answer on [L], and a generator holds the eigenpairs returned
    for [L].  [L] is not normalised (its entry [(i, j)] is the row sum of [A]
    on the diagonal, zero elsewhere, minus [A[i][j]]); for a square [A],
    whatever the sign of its weights, every row of [L] sums to zero and [L]
    is symmetric exactly when [A] is. *)
Theorem laplacian_degree_minus_adjacency (G : StellarGraph node)
    (sc : scales_arg) (ns nev : Z) (N : nat) :
  let A := to_adjacency_matrix G None in
  let L := laplacian_of A in
  let k := if (nev =? -1)%Z then (Z.of_nat (length L) - 2)%Z else nev in
  shape2 N N A ->
  (forall eigs' : matrix -> Z -> result (list complex * list (list complex)),
     eigs' L k = eigs L k ->
     __init__ node_eq_dec eigs' G sc ns nev = init G sc ns nev) /\
  (forall gen, init G sc ns nev = Ok gen ->
     exists vals vecs,
       eigs L k = Ok (vals, vecs) /\
       eigen_vals gen = map real vals /\
       eigen_vecs gen = map (map real) vecs) /\
  shape2 N N L /\
  (forall i j, (i < N)%nat -> (j < N)%nat ->
     entry L i j = (if Nat.eqb i j then Np.sum (nth i A []) else 0) - entry A i j) /\
  (forall i, (i < N)%nat -> Np.sum (nth i L []) = 0) /\
  ((forall i j, (i < N)%nat -> (j < N)%nat -> entry L i j = entry L j i) <->
   (forall i j, (i < N)%nat -> (j < N)%nat -> entry A i j = entry A j i)).
Proof.
  cbv zeta. intros Hsq. split; [|split].
  - intros eigs' Hsame. unfold __init__.
    destruct (node_types G) as [|t [|t' types]]; simpl; try reflexivity.
    now rewrite Hsame.
  - intros gen Hinit.
    destruct (init_inv _ _ _ _ Hinit)
      as (t & vals & vecs & _ & Heigs & _ & _ & _ & _ & Hvals & Hvecs).
    now exists vals, vecs.
  - exact (laplacian_of_spec Hsq).
Qed.

(** C9, as amended.  With an explicit, non-empty sequence of scales the
    constructor validates nothing about their values: for any reals, once
    the graph has a single node type and the eigensolver has answered, it
    returns a generator whose scales are the given ones, whose cache slice
    [c] is [U . diag(exp(- values[c] * eigenvalues))], and which does not
    depend on [num_scales]. *)
Theorem explicit_scales_verbatim (G : StellarGraph node) (values : vector)
    (ns nev : Z) (t : string) vals vecs :
  eigs_contract eigs ->
  node_types G = [t] ->
  eigs (laplacian_of (to_adjacency_matrix G None))
       (if (nev =? -1)%Z
        then (Z.of_nat (length (laplacian_of (to_adjacency_matrix G None)))
              - 2)%Z
        else nev) = Ok (vals, vecs) ->
  values <> [] ->
  exists gen,
    init G (Explicit values) ns nev = Ok gen /\
    scales gen = values /\
    wavelet_cache (eigen_vals gen) (eigen_vecs gen) values = Ok (Ues gen) /\
    shape3 (length (to_adjacency_matrix G None)) (length (eigen_vals gen))
           (length values) (Ues gen) /\
    (forall i j c,
       (i < length (to_adjacency_matrix G None))%nat ->
       (j < length (eigen_vals gen))%nat -> (c < length values)%nat ->
       entry3 (Ues gen) i j c =
       entry (eigen_vecs gen) i j *
       exp (- nth c values 0 * nth j (eigen_vals gen) 0)) /\
    forall ns', init G (Explicit values) ns' nev = Ok gen.
Proof.
  intros Hcontract Htypes Heigs Hne.
  destruct (Hcontract _ _ _ _ Heigs) as (_ & Hlen & Hsh).
  assert (HU : shape2 (length (laplacian_of (to_adjacency_matrix G None)))
                      (length (map real vals)) (map (map real) vecs)).
  { apply shape2_map_map. now rewrite length_map, Hlen. }
  destruct (@wavelet_cache_ok _ _ _ _ HU eq_refl values Hne) as (T & HT).
  pose proof (fun ns' =>
    @init_intro G (Explicit values) ns' nev t vals vecs values T
      Htypes Heigs eq_refl HT) as Hinit.
  eexists. split; [apply Hinit|]. cbn [scales eigen_vals eigen_vecs Ues].
  split; [reflexivity|]. split; [exact HT|].
  destruct (init_shapes _ _ _ _ Hcontract (Hinit ns))
    as (_ & _ & _ & _ & _ & HshT & Hent).
  cbn [scales eigen_vals eigen_vecs Ues] in HshT, Hent.
  split; [exact HshT|]. split; [exact Hent|]. exact Hinit.
Qed.

(** *** The claims about streaming *)

(** C6, as amended.  When [flow] is called with a node id that is not in
    the node list of the generator, the call raises, and no dataset, hence
    no embedding, is produced for any id.  The exception is the [TypeError]
    of the conversion of [None] to [int64]; its message is fixed and does
    not mention the id. *)
Theorem missing_node_raises {T : Type} (G : StellarGraph node)
    (sc : scales_arg) (ns nev : Z) (gen : GraphWaveGenerator node)
    (ids : list node) (id : node) (ts : vector) (bs : Z)
    (tg : option (list T)) (rep : bool) (thr : Z) :
  init G sc ns nev = Ok gen ->
  In id ids -> ~ In id (node_list gen) ->
  flow gen ids ts bs tg rep thr = Err none_to_int64.
Proof.
  intros Hinit Hin Hnot.
  destruct (init_inv _ _ _ _ Hinit)
    as (t & vals & vecs & _ & _ & _ & _ & Hlist & Hdict & _).
  apply flow_missing with id; [exact Hin|].
  rewrite Hdict. apply node_index_none. now rewrite <- Hlist.
Qed.


(** C10.  The lookup of the node ids and the gathering of their eigenvector
    rows belong to the call of [flow]: an id without index makes the call
    itself raise, whatever the other arguments; and when the call returns a
    dataset, every id has been resolved to a row, and every embedding that
    the dataset yields is computed from such a row, so that iterating it
    performs no lookup. *)
Theorem lookup_is_eager {T : Type} (self : GraphWaveGenerator node)
    (ids : list node) (ts : vector) (bs : Z) (tg : option (list T))
    (rep : bool) (thr : Z) :
  ((exists id, In id ids /\ dict_get (node_index_dict self) id = None) ->
   flow self ids ts bs tg rep thr = Err none_to_int64) /\
  (forall fd, flow self ids ts bs tg rep thr = Ok fd ->
     (forall id, In id ids ->
        exists i u, dict_get (node_index_dict self) id = Some i /\
                    nth_error (eigen_vecs self) i = Some u) /\
     (forall n e, In e (pull n fd) ->
        exists id, In id ids /\ node_embedding node_eq_dec self ts id e)).
Proof.
  split.
  - intros (id & Hin & Hnone). now apply flow_missing with id.
  - intros fd Hflow. split.
    + intros id Hin. pose proof Hflow as Hinv. apply flow_inv in Hinv.
      destruct Hinv as (pass & _ & Hpass & _).
      eapply Forall2_In_l in Hin; [|exact Hpass].
      destruct Hin as (e & _ & i & u & Hi & Hu & _).
      now exists i, u.
    + intros n e Hin. eapply pull_incl; eassumption.
Qed.
End Generator.

(** * The claims on the two concrete graphs *)

Section Instances.
Local Open Scope R_scope.

Local Abbreviation init4 := (__init__ Nat.eq_dec Demo.cycle4_eigs Demo.cycle4).
Local Abbreviation flow4 := (@flow nat Nat.eq_dec R).

Lemma cycle4_eigs_contract : eigs_contract Demo.cycle4_eigs.
Proof.
  intros L k vals vecs H. unfold Demo.cycle4_eigs in H.
  destruct (Z.eqb_spec k 2) as [->|_]; [|discriminate].
  destruct (Nat.eqb_spec (length L) 4) as [HL|_]; [|discriminate].
  cbn [andb] in H. injection H as <- <-. rewrite HL.
  split; [lia|]. split; [reflexivity|].
  split; [reflexivity | repeat constructor].
Qed.

Lemma empty4_eigs_contract : eigs_contract Demo.empty4_eigs.
Proof.
  intros L k vals vecs H. unfold Demo.empty4_eigs in H.
  destruct (Z.eqb_spec k 2) as [->|_]; [|discriminate].
  destruct (Nat.eqb_spec (length L) 4) as [HL|_]; [|discriminate].
  cbn [andb] in H. injection H as <- <-. rewrite HL.
  split; [lia|]. split; [reflexivity|].
  split; [reflexivity | repeat constructor].
Qed.

(** The eigensolver's answer for the cycle. *)
Lemma cycle4_eigs_answer :
  Demo.cycle4_eigs
    (laplacian_of (to_adjacency_matrix Demo.cycle4 None))
    (if (-1 =? -1)%Z
     then (Z.of_nat
             (length (laplacian_of (to_adjacency_matrix Demo.cycle4 None)))
           - 2)%Z
     else -1%Z) =
  Ok ([(4, 0); (2, 0)],
      [[(1 / 2, 0); (1 / sqrt 2, 0)];
       [(- 1 / 2, 0); (0, 0)];
       [(1 / 2, 0); (- 1 / sqrt 2, 0)];
       [(- 1 / 2, 0); (0, 0)]]).
Proof. reflexivity. Qed.

(** Automatic scale selection succeeds on the cycle for any positive
    number of scales. *)
Lemma cycle4_auto (ns : Z) :
  (1 <= ns)%Z -> exists gen, init4 Auto ns (-1) = Ok gen.
Proof.
  intros Hns.
  destruct (@auto_scales_ok [4; 2] ns) as (ys & Hys);
    [exists 4; split; [now left | lra] | lia |].
  assert (Hne : ys <> []).
  { apply auto_scales_spec in Hys.
    destruct Hys as (_ & _ & _ & _ & _ & Hlen & _).
    intros ->. simpl in Hlen. lia. }
  assert (HU : shape2 4 2
    (map (map real)
      [[(1 / 2, 0); (1 / sqrt 2, 0)];
       [(- 1 / 2, 0); (0, 0)];
       [(1 / 2, 0); (- 1 / sqrt 2, 0)];
       [(- 1 / 2, 0); (0, 0)]])).
  { split; [reflexivity | repeat constructor]. }
  destruct (@wavelet_cache_ok (map real [(4, 0); (2, 0)]) _ 4 2 HU eq_refl
              ys Hne) as (T & HT).
  eexists.
  exact (@init_intro nat Nat.eq_dec Demo.cycle4_eigs Demo.cycle4 Auto ns (-1)
           "default"%string _ _ ys T eq_refl cycle4_eigs_answer Hys HT).
Qed.

(** With one scale asked for, the automatic selection on the cycle keeps
    the lower bound only. *)
Lemma cycle4_auto_scales_one :
  auto_scales [4; 2] 1 =
  Ok [0 * (- ln 0.85 / sqrt (4 * 2) - - ln 0.95 / sqrt (4 * 2))
      + - ln 0.95 / sqrt (4 * 2)].
Proof.
  unfold auto_scales. cbn [filter].
  replace (Np.gt0 4) with true by (symmetry; apply gt0_true; lra).
  replace (Np.gt0 2) with true by (symmetry; apply gt0_true; lra).
  cbn [Np.min Np.max fold_left bind].
  rewrite Rmin_right by lra. rewrite Rmax_left by lra.
  apply linspace_one.
Qed.

Lemma scale_bounds_differ (s : R) :
  0 < s -> - ln 0.85 / s <> 0 * (- ln 0.85 / s - - ln 0.95 / s) + - ln 0.95 / s.
Proof.
  intros Hs.
  assert (Hln : ln 0.85 < ln 0.95) by (apply ln_increasing; lra).
  assert (Hinv : 0 < / s) by (now apply Rinv_0_lt_compat).
  unfold Rdiv. nra.
Qed.

(** On the cycle (4 nodes, 2 eigenvectors, 1 scale) the cache has shape
    (4, 2, 1) and the samples of node 0 have shape (4, 1). *)
Lemma wavelet_samples_shape_witness :
  exists gen u,
    init4 (Explicit [1]) 3 (-1) = Ok gen /\
    nth_error (eigen_vecs gen) 0 = Some u /\
    shape3 4 2 1 (Ues gen) /\
    shape2 4 1 (Tf.einsum_ijk_j_ik (Ues gen) u).
Proof.
  eexists. eexists. split; [reflexivity|]. split; [reflexivity|].
  pose proof (@wavelet_samples_shape nat Nat.eq_dec Demo.cycle4_eigs
                Demo.cycle4 (Explicit [1]) 3 (-1) _
                cycle4_eigs_contract eq_refl) as H.
  cbv zeta in H. destruct H as (Hcache & _ & Hrow).
  split; [exact Hcache|].
  exact (proj1 (proj2 (Hrow 0%nat 0%nat _ eq_refl eq_refl))).
Defined.

(** C1 as stated fails: on the cycle the generator has 2 eigenvectors, yet
    the samples of node 0 have 4 rows, one per node, so their shape is not
    (2, 1). *)
Lemma wavelet_samples_not_k_by_S :
  exists gen u,
    init4 (Explicit [1]) 3 (-1) = Ok gen /\
    nth_error (eigen_vecs gen) 0 = Some u /\
    length (eigen_vals gen) = 2%nat /\
    length (scales gen) = 1%nat /\
    length (Tf.einsum_ijk_j_ik (Ues gen) u) = 4%nat /\
    ~ shape2 (length (eigen_vals gen)) (length (scales gen))
             (Tf.einsum_ijk_j_ik (Ues gen) u).
Proof.
  eexists. eexists. split; [reflexivity|]. split; [reflexivity|].
  split; [reflexivity|]. split; [reflexivity|]. split; [reflexivity|].
  intros [H _]. discriminate H.
Qed.

(** Two nodes of the cycle, two sample points, one scale: embeddings of
    length 4. *)
Lemma embedding_length_2mS_witness :
  exists gen fd,
    init4 (Explicit [1]) 3 (-1) = Ok gen /\
    flow4 gen [0; 2]%nat [0; 1] 2 None false 1 = Ok fd /\
    length (nth 1 (pull 2 fd) []) = 4%nat.
Proof.
  eexists. eexists. split; [reflexivity|]. split; [reflexivity|].
  refine (proj1 (@embedding_length_2mS nat Nat.eq_dec Demo.cycle4_eigs R
                   Demo.cycle4 (Explicit [1]) 3 (-1) _ [0; 2]%nat [0; 1] 2
                   None false 1 _ 2 _ cycle4_eigs_contract eq_refl eq_refl _)).
  right. left. reflexivity.
Defined.

(** Three automatic scales on the cycle. *)
Lemma auto_scales_evenly_spaced_witness :
  exists gen,
    init4 Auto 3 (-1) = Ok gen /\
    length (scales gen) = 3%nat /\
    exists e2 eN,
      nth 0 (scales gen) 0 = - ln 0.95 / sqrt (eN * e2) /\
      nth 2 (scales gen) 0 = - ln 0.85 / sqrt (eN * e2).
Proof.
  destruct (@cycle4_auto 3) as (gen & Hgen); [lia|].
  exists gen. split; [exact Hgen|].
  destruct (@auto_scales_evenly_spaced nat Nat.eq_dec Demo.cycle4_eigs
              Demo.cycle4 3 (-1) gen Hgen)
    as (e2 & eN & _ & _ & H).
  cbv zeta in H. destruct H as (_ & Hlen & _ & Hfirst & Hlast).
  split; [exact Hlen|]. exists e2, eN. split; [exact Hfirst|].
  apply Hlast. simpl. lia.
Defined.

(** C3 as stated fails for [num_scales = 1]: on the cycle, whose
    eigenvalues are 4 and 2, construction succeeds with the single scale
    [min_scale], and [max_scale = -ln(0.85)/sqrt(4*2)] is not among the
    scales. *)
Lemma single_auto_scale_misses_max_scale :
  exists gen,
    init4 Auto 1 (-1) = Ok gen /\
    eigen_vals gen = [4; 2] /\
    length (scales gen) = 1%nat /\
    ~ In (- ln 0.85 / sqrt (4 * 2)) (scales gen).
Proof.
  assert (HU : shape2 4 2
    (map (map real)
      [[(1 / 2, 0); (1 / sqrt 2, 0)];
       [(- 1 / 2, 0); (0, 0)];
       [(1 / 2, 0); (- 1 / sqrt 2, 0)];
       [(- 1 / 2, 0); (0, 0)]])).
  { split; [reflexivity | repeat constructor]. }
  destruct (@wavelet_cache_ok (map real [(4, 0); (2, 0)]) _ 4 2 HU eq_refl
              [0 * (- ln 0.85 / sqrt (4 * 2) - - ln 0.95 / sqrt (4 * 2))
               + - ln 0.95 / sqrt (4 * 2)])
    as (T & HT); [discriminate|].
  eexists. split.
  - exact (@init_intro nat Nat.eq_dec Demo.cycle4_eigs Demo.cycle4 Auto 1
             (-1) "default"%string _ _ _ T eq_refl cycle4_eigs_answer
             cycle4_auto_scales_one HT).
  - cbn [eigen_vals scales]. split; [reflexivity|]. split; [reflexivity|].
    intros [Heq|[]]. symmetry in Heq. revert Heq.
    apply scale_bounds_differ. apply sqrt_lt_R0. lra.
Qed.

(** The graph without edges: its eigenvalues are all zero and automatic
    scale selection raises. *)
Lemma auto_scales_without_positive_eigenvalue_witness :
  raises (__init__ Nat.eq_dec Demo.empty4_eigs Demo.empty4 Auto 3 (-1)).
Proof.
  refine (proj1 (@auto_scales_without_positive_eigenvalue nat Nat.eq_dec
                   Demo.empty4_eigs Demo.empty4 3 (-1) _)).
  intros vals vecs H.
  assert (Hvals : vals = [(0, 0); (0, 0)])
    by (change (Ok ([(0, 0); (0, 0)] : list complex,
                    [[(1, 0); (0, 0)]; [(0, 0); (1, 0)];
                     [(0, 0); (0, 0)]; [(0, 0); (0, 0)]] : list (list complex))
                = Ok (vals, vecs)) in H; congruence).
  subst vals. repeat constructor; simpl; lra.
Defined.

(** A graph without node type and a graph with two node types. *)
Lemma single_node_type_required_witness :
  __init__ Nat.eq_dec Demo.cycle4_eigs Demo.untyped Auto 3 (-1)
    = Err list_index_out_of_range /\
  __init__ Nat.eq_dec Demo.cycle4_eigs Demo.two_typed Auto 3 (-1)
    = Err multiple_node_types.
Proof.
  split.
  - apply (@single_node_type_required nat Nat.eq_dec Demo.cycle4_eigs
             Demo.untyped Auto 3 (-1)). simpl. lia.
  - apply (@single_node_type_required nat Nat.eq_dec Demo.cycle4_eigs
             Demo.two_typed Auto 3 (-1)). simpl. lia.
Defined.

(** Node 7 is not a node of the cycle. *)
Lemma missing_node_raises_witness :
  exists gen,
    init4 (Explicit [1]) 3 (-1) = Ok gen /\
    flow4 gen [0; 7]%nat [0; 1] 2 None true 1 = Err none_to_int64.
Proof.
  eexists. split; [reflexivity|].
  apply (@missing_node_raises nat Nat.eq_dec Demo.cycle4_eigs R Demo.cycle4
           (Explicit [1]) 3 (-1) _ [0; 7]%nat 7%nat [0; 1] 2 None true 1
           eq_refl).
  - simpl. auto.
  - simpl. lia.
Defined.

(** C6 as stated fails: asking the generator of the cycle for the unknown
    node 7 raises a [TypeError], which is not a [LookupError], and the
    exception is the same one as for the unknown node 9: it does not name
    the id. *)
Lemma missing_node_error_is_not_a_lookup_error :
  exists gen,
    init4 (Explicit [1]) 3 (-1) = Ok gen /\
    flow4 gen [7]%nat [0; 1] 2 None true 1 = Err none_to_int64 /\
    flow4 gen [9]%nat [0; 1] 2 None true 1 = Err none_to_int64 /\
    exn_kind none_to_int64 = TypeError /\
    is_LookupError none_to_int64 = false.
Proof.
  eexists. split; [reflexivity|]. repeat split; reflexivity.
Qed.



(** The cycle: its generator holds the eigenvalues 4 and 2 that the
    eigensolver returns for the Laplacian, whose rows sum to zero. *)
Lemma laplacian_degree_minus_adjacency_witness :
  shape2 4 4 (to_adjacency_matrix Demo.cycle4 None) /\
  Np.sum (nth 1 (laplacian_of (to_adjacency_matrix Demo.cycle4 None)) []) = 0 /\
  exists gen,
    init4 (Explicit [1]) 3 (-1) = Ok gen /\
    exists vals vecs,
      Demo.cycle4_eigs (laplacian_of (to_adjacency_matrix Demo.cycle4 None)) 2
        = Ok (vals, vecs) /\
      eigen_vals gen = map real vals.
Proof.
  assert (Hsq : shape2 4 4 (to_adjacency_matrix Demo.cycle4 None))
    by (split; [reflexivity | repeat constructor]).
  pose proof (@laplacian_degree_minus_adjacency nat Nat.eq_dec
                Demo.cycle4_eigs Demo.cycle4 (Explicit [1]) 3 (-1) 4 Hsq)
    as (_ & Hgen & _ & _ & Hrows & _).
  split; [exact Hsq|]. split; [apply Hrows; lia|].
  eexists. split; [reflexivity|].
  destruct (Hgen _ eq_refl) as (vals & vecs & Heigs & Hvals & _).
  exists vals, vecs. split; [exact Heigs | exact Hvals].
Defined.

(** A zero, a negative and an out-of-order scale. *)
Lemma explicit_scales_verbatim_witness :
  exists gen,
    init4 (Explicit [2; 0; -1]) 3 (-1) = Ok gen /\
    scales gen = [2; 0; -1] /\
    init4 (Explicit [2; 0; -1]) 7 (-1) = Ok gen.
Proof.
  destruct (@explicit_scales_verbatim nat Nat.eq_dec Demo.cycle4_eigs
              Demo.cycle4 [2; 0; -1] 3 (-1) "default"%string _ _
              cycle4_eigs_contract eq_refl cycle4_eigs_answer)
    as (gen & Hgen & Hscales & _ & _ & _ & Hns); [discriminate|].
  exists gen. split; [exact Hgen|]. split; [exact Hscales | apply Hns].
Defined.

(** C9 as stated fails for the empty sequence of scales: on the cycle,
    where construction succeeds with the scale 1, it raises the
    [ValueError] of [np.dstack]. *)
Lemma explicit_empty_scales_raise :
  init4 (Explicit []) 3 (-1) = Err Np.nothing_to_concatenate /\
  exists gen, init4 (Explicit [1]) 3 (-1) = Ok gen.
Proof.
  split; [reflexivity|]. eexists. reflexivity.
Qed.

(** On the cycle: a call with the unknown node 7 raises at once, and a call
    with known nodes resolves each of them before returning. *)
Lemma lookup_is_eager_witness :
  exists gen fd,
    init4 (Explicit [1]) 3 (-1) = Ok gen /\
    flow4 gen [0; 7]%nat [0; 1] 2 None true 1 = Err none_to_int64 /\
    flow4 gen [3; 1]%nat [0; 1] 2 None true 1 = Ok fd /\
    exists i u, dict_get Nat.eq_dec (node_index_dict gen) 1%nat = Some i /\
                nth_error (eigen_vecs gen) i = Some u.
Proof.
  eexists. eexists. split; [reflexivity|].
  lazymatch goal with
  | |- flow4 ?g _ _ _ _ _ _ = _ /\ _ =>
      split;
      [ apply (proj1 (@lookup_is_eager nat Nat.eq_dec R g [0; 7]%nat
                        [0; 1] 2 None true 1));
        exists 7%nat; split; [simpl; auto | reflexivity]
      | split; [reflexivity|] ];
      lazymatch goal with
      | |- exists i u, _ =>
          refine (proj1 (proj2 (@lookup_is_eager nat Nat.eq_dec R g
                                  [3; 1]%nat [0; 1] 2 None true 1)
                           _ eq_refl) 1%nat _);
          simpl; auto
      end
  end.
Defined.
End Instances.


(** * Further properties of the code *)

(** ** The characteristic function sampler *)

Section SamplerProperties.
Local Open Scope R_scope.



Lemma sum_opp (A : Type) (f : A -> R) (l : list A) :
  Np.sum (map (fun a => - f a) l) = - Np.sum (map f l).
Proof.
  induction l as [|a l IH]; [simpl; ring|].
  unfold Np.sum in *. simpl. rewrite IH. ring.
Qed.

(** X1.  Layout of the embedding: for [m] sample points and [S] scales, the
    entry at position [a * S + c] is the mean over the samples of
    [cos(x * ts[a])] at scale [c], and the entry at [m * S + a * S + c] the
    mean of [sin(x * ts[a])]: all cosine responses first, ordered by sample
    point then scale, then all sine responses in the same order. *)
Theorem embedding_layout (samples : list (list R)) (ts : list R)
    (ns S a c : nat) :
  shape2 ns S samples -> (0 < ns)%nat ->
  (a < length ts)%nat -> (c < S)%nat ->
  nth (a * S + c) (_empirical_characteristic_function samples ts) 0 =
    Tf.mean (map (fun row => cos (nth c row 0 * nth a ts 0)) samples) /\
  nth (length ts * S + a * S + c)
      (_empirical_characteristic_function samples ts) 0 =
    Tf.mean (map (fun row => sin (nth c row 0 * nth a ts 0)) samples).
Proof. apply ecf_slots. Qed.


(** X4.  Negating the sample points leaves the cosine half of the embedding
    unchanged and negates its sine half. *)
Theorem embedding_negated_points (samples : list (list R)) (ts : list R)
    (ns S : nat) :
  shape2 ns S samples ->
  _empirical_characteristic_function samples (map Ropp ts) =
  Tf.flatten (mean_response cos samples ts) ++
  map Ropp (Tf.flatten (mean_response sin samples ts)).
Proof.
  intros Hsh. rewrite (ecf_blocks (map Ropp ts) Hsh). f_equal.
  - unfold mean_response. rewrite map_map. f_equal.
    apply map_ext. intros t. apply map_ext. intros c. f_equal.
    apply map_ext. intros row.
    now rewrite <- Ropp_mult_distr_r, cos_neg.
  - unfold Tf.flatten. rewrite concat_map. f_equal.
    unfold mean_response. rewrite !map_map.
    apply map_ext. intros t. rewrite map_map. apply map_ext. intros c.
    unfold Tf.mean. rewrite !length_map.
    rewrite (map_ext (fun row => sin (nth c row 0 * - t))
                     (fun row => - sin (nth c row 0 * t)))
      by (intros row; now rewrite <- Ropp_mult_distr_r, sin_neg).
    rewrite sum_opp. unfold Rdiv. ring.
Qed.
Lemma sum_permutation (v w : list R) :
  Permutation v w -> Np.sum v = Np.sum w.
Proof.
  unfold Np.sum. induction 1 as [|x v w _ IH|x y v|v w z _ IH1 _ IH2]; simpl.
  - reflexivity.
  - now rewrite IH.
  - ring.
  - now rewrite IH1.
Qed.

(** X14.  The embedding does not depend on the order of the samples: listing
    the rows of the sample tensor in another order gives the same
    embedding. *)
Theorem embedding_ignores_sample_order (samples samples' : list (list R))
    (ts : list R) (ns S : nat) :
  shape2 ns S samples ->
  Permutation samples samples' ->
  _empirical_characteristic_function samples ts =
  _empirical_characteristic_function samples' ts.
Proof.
  intros Hsh Hperm.
  assert (Hsh' : shape2 ns S samples').
  { destruct Hsh as [Hlen Hrows]. split.
    - now rewrite <- (Permutation_length Hperm).
    - now apply (Permutation_Forall Hperm). }
  rewrite (ecf_blocks ts Hsh), (ecf_blocks ts Hsh').
  assert (Hcols : ncols samples = ncols samples').
  { destruct ns as [|ns].
    - destruct Hsh as [Hlen _]. destruct Hsh' as [Hlen' _].
      destruct samples, samples'; try discriminate. reflexivity.
    - now rewrite (shape2_ncols Hsh), (shape2_ncols Hsh') by lia. }
  assert (Hresp : forall g,
            mean_response g samples ts = mean_response g samples' ts).
  { intros g. unfold mean_response. rewrite <- Hcols.
    apply map_ext. intros t. apply map_ext. intros c.
    unfold Tf.mean. rewrite !length_map, (Permutation_length Hperm).
    f_equal. apply sum_permutation. now apply Permutation_map. }
  now rewrite !Hresp.
Qed.
End SamplerProperties.

(** ** The generator and its datasets *)

Lemma snd_split_map {A B : Type} (l : list (A * B)) :
  snd (split l) = map snd l.
Proof.
  induction l as [|[a b] l IH]; simpl; [reflexivity|].
  destruct (split l) as [la lb]. simpl in *. now rewrite IH.
Qed.

Lemma combine_fst_snd {A B : Type} (l : list (A * B)) :
  combine (map fst l) (map snd l) = l.
Proof.
  induction l as [|[a b] l IH]; simpl; [reflexivity | now rewrite IH].
Qed.

Lemma chunks_fuel_nth {A : Type} (size fuel : nat) (l : list A) (j : nat) :
  (0 < size)%nat -> (length l <= fuel)%nat ->
  nth j (Dataset.chunks_fuel fuel size l) [] =
  firstn size (skipn (j * size) l).
Proof.
  intros Hsize. revert l j. induction fuel as [|fuel IH]; intros l j Hl.
  - destruct l; [|simpl in Hl; lia]. simpl.
    rewrite skipn_nil, firstn_nil. now destruct j.
  - destruct l as [|a l'].
    + simpl. rewrite skipn_nil, firstn_nil. now destruct j.
    + cbn [Dataset.chunks_fuel]. destruct j as [|j]; [reflexivity|].
      cbn [nth]. rewrite IH.
      * rewrite skipn_skipn. f_equal. f_equal. lia.
      * rewrite length_skipn. cbn [length] in *. lia.
Qed.

Lemma chunks_fuel_le {A : Type} (size fuel : nat) (l : list A) :
  Forall (fun b => (length b <= size)%nat) (Dataset.chunks_fuel fuel size l).
Proof.
  revert l. induction fuel as [|fuel IH]; intros l; simpl; [constructor|].
  destruct l as [|a l']; [constructor|]. constructor; [|apply IH].
  apply firstn_le_length.
Qed.

(** Batch [j] of a list cut in groups of [size] is its slice
    [j * size, (j + 1) * size), and there are as many batches as slices that
    start inside the list. *)
Lemma chunks_slices {A : Type} (size : nat) (l : list A) :
  (0 < size)%nat ->
  (forall j, nth j (Dataset.chunks size l) [] =
             firstn size (skipn (j * size) l)) /\
  (forall j, (j < length (Dataset.chunks size l))%nat <->
             (j * size < length l)%nat).
Proof.
  intros Hsize.
  assert (Hnth : forall j, nth j (Dataset.chunks size l) [] =
                           firstn size (skipn (j * size) l))
    by (intros j; apply chunks_fuel_nth; [exact Hsize | lia]).
  split; [exact Hnth|]. intros j. split; intros Hj.
  - pose proof (chunks_nonempty l Hsize) as Hne.
    rewrite Forall_forall in Hne.
    specialize (Hne _ (nth_In _ [] Hj)). rewrite Hnth in Hne.
    destruct (Nat.lt_ge_cases (j * size) (length l)) as [Hlt|Hge]; [exact Hlt|].
    exfalso. apply Hne. rewrite skipn_all2 by exact Hge. apply firstn_nil.
  - destruct (Nat.lt_ge_cases j (length (Dataset.chunks size l)))
      as [Hlt|Hge]; [exact Hlt|].
    exfalso. pose proof (Hnth j) as Hj'. rewrite nth_overflow in Hj' by exact Hge.
    assert (Hlen : length (firstn size (skipn (j * size) l)) = 0%nat)
      by (now rewrite <- Hj').
    rewrite length_firstn, length_skipn in Hlen. lia.
Qed.

Lemma cycle_firstn {A : Type} (n : nat) (p : list A) :
  (n <= length p)%nat -> Dataset.cycle n p = firstn n p.
Proof.
  intros Hn. unfold Dataset.cycle. destruct n as [|n]; [reflexivity|].
  cbn [List.repeat concat]. rewrite firstn_app.
  replace (S n - length p)%nat with 0%nat by lia.
  cbn [firstn]. apply app_nil_r.
Qed.

Section Inner.
Local Open Scope R_scope.

(** The inner product as a sum over the common index. *)
Lemma inner_as_sum (w v : list R) :
  length w = length v ->
  Np.inner w v =
  Np.sum (map (fun j => nth j w 0 * nth j v 0) (seq 0 (length w))).
Proof.
  unfold Np.inner. revert v. induction w as [|x w IH]; intros [|y v] Hlen;
    try discriminate; [reflexivity|].
  cbn [zip_with length seq map]. rewrite <- seq_shift, map_map.
  unfold Np.sum in *. cbn [fold_right nth]. f_equal.
  apply IH. simpl in Hlen. lia.
Qed.
End Inner.

Section GeneratorProperties.
Local Open Scope R_scope.

Variable node : Type.
Variable node_eq_dec : forall a b : node, {a = b} + {a <> b}.
Variable eigs : list (list R) -> Z -> result (list complex * list (list complex)).

Local Abbreviation init := (__init__ node_eq_dec eigs).
Local Abbreviation lookup := (dict_get node_eq_dec).
Local Abbreviation stream := (flow node_eq_dec).
Local Abbreviation embeds := (node_embedding node_eq_dec).

(** *** The node index mapping *)

Lemma dict_fold_some (pairs : list (node * nat)) (d : dict node) (key : node)
    (i : nat) :
  lookup (fold_left (fun d kv => dict_set node_eq_dec d (fst kv) (snd kv))
                    pairs d) key = Some i ->
  In (key, i) pairs \/ lookup d key = Some i.
Proof.
  revert d. induction pairs as [|[k v] pairs IH]; intros d H; simpl in *.
  - now right.
  - destruct (IH _ H) as [Hin|Hget]; [left; now right|].
    rewrite dict_get_set in Hget.
    destruct (node_eq_dec key k) as [->|Hne].
    + injection Hget as ->. left. now left.
    + now right.
Qed.

Lemma in_combine_seq (l : list node) (s : nat) (key : node) (i : nat) :
  In (key, i) (combine l (seq s (length l))) ->
  (s <= i)%nat /\ nth_error l (i - s) = Some key.
Proof.
  revert s. induction l as [|a l IH]; intros s H; simpl in H; [contradiction|].
  destruct H as [Heq|Hin].
  - injection Heq as -> ->. rewrite Nat.sub_diag. split; [lia | reflexivity].
  - destruct (IH _ Hin) as [Hle Hnth]. split; [lia|].
    replace (i - s)%nat with (S (i - S s)) by lia. exact Hnth.
Qed.

Lemma node_index_some (l : list node) (key : node) (i : nat) :
  lookup (dict_of node_eq_dec (combine l (seq 0 (length l)))) key = Some i ->
  nth_error l i = Some key.
Proof.
  unfold dict_of. intros H. apply dict_fold_some in H.
  destruct H as [Hin|Hget]; [|discriminate].
  apply in_combine_seq in Hin. now rewrite Nat.sub_0_r in Hin.
Qed.

Lemma node_index_in (l : list node) (key : node) :
  In key l ->
  exists i, lookup (dict_of node_eq_dec (combine l (seq 0 (length l)))) key
            = Some i.
Proof.
  intros Hin.
  destruct (lookup (dict_of node_eq_dec (combine l (seq 0 (length l)))) key)
    as [i|] eqn:Hget; [now exists i|].
  apply node_index_none in Hget. contradiction.
Qed.

(** X5.  The node index mapping built by the constructor sends a node id to
    a position of the node list that holds this id; every id of the node
    list has an index; and when the node list has no duplicate, the id at
    position [i] is sent to [i], so that the mapping is the inverse of the
    node list. *)
Theorem node_index_mapping (G : StellarGraph node) (sc : scales_arg)
    (ns nev : Z) (gen : GraphWaveGenerator node) :
  init G sc ns nev = Ok gen ->
  (forall id i, lookup (node_index_dict gen) id = Some i ->
                nth_error (node_list gen) i = Some id) /\
  (forall id, In id (node_list gen) ->
              exists i, lookup (node_index_dict gen) id = Some i) /\
  (NoDup (node_list gen) ->
   forall id i, nth_error (node_list gen) i = Some id ->
                lookup (node_index_dict gen) id = Some i).
Proof.
  intros Hinit.
  destruct (@init_inv _ _ _ _ _ _ _ _ Hinit)
    as (t & vals & vecs & _ & _ & _ & _ & Hlist & Hdict & _).
  rewrite Hdict, Hlist. split; [|split].
  - intros id i. apply node_index_some.
  - intros id. apply node_index_in.
  - intros Hnodup id i Hnth.
    destruct (node_index_in _ _ (nth_error_In _ _ Hnth)) as (j & Hj).
    rewrite Hj. f_equal.
    pose proof (node_index_some _ _ Hj) as Hnth'.
    rewrite NoDup_nth_error in Hnodup. symmetry. apply Hnodup.
    + apply nth_error_Some. congruence.
    + congruence.
Qed.

(** *** When [flow] returns *)

Lemma batch_ok {A : Type} (bs : Z) (l : list A) :
  (1 <= bs < 2 ^ 63)%Z ->
  Dataset.batch bs (Dataset.Once l) =
  Ok (Dataset.Once (Dataset.chunks (Z.to_nat bs) l)).
Proof.
  intros H. unfold Dataset.batch.
  assert (H63 : (0 < 2 ^ 63)%Z) by reflexivity.
  rewrite to_int64_ok by lia. cbn [bind].
  destruct (Z.ltb_spec bs 1); [lia | reflexivity].
Qed.

(** X6.  For a generator built on a graph whose adjacency matrix has a row
    for each node of the node list: when [flow] returns a dataset, every
    requested id is in the node list, [threads] is -1 (autotune) or at least
    1, and the batch size is at least 1, both within the range of [int64];
    and [flow] does return a dataset when every requested id is in the node
    list, [threads] is -1 or between 1 and 2^31 - 1, and the batch size is
    between 1 and 2^63 - 1.  Sample points, targets and [repeat] never make
    it fail. *)
Theorem flow_success_conditions {T : Type} (G : StellarGraph node)
    (sc : scales_arg) (ns nev : Z) (gen : GraphWaveGenerator node)
    (ids : list node) (ts : list R) (bs : Z) (tg : option (list T))
    (rep : bool) (thr : Z) :
  eigs_contract eigs ->
  init G sc ns nev = Ok gen ->
  (length (node_list gen) <= length (to_adjacency_matrix G None))%nat ->
  ((exists fd, stream gen ids ts bs tg rep thr = Ok fd) ->
   Forall (fun id => In id (node_list gen)) ids /\
   (thr = -1 \/ 1 <= thr < 2 ^ 63)%Z /\
   (1 <= bs < 2 ^ 63)%Z) /\
  (Forall (fun id => In id (node_list gen)) ids ->
   (thr = -1 \/ 1 <= thr < 2 ^ 31)%Z ->
   (1 <= bs < 2 ^ 63)%Z ->
   exists fd, stream gen ids ts bs tg rep thr = Ok fd).
Proof.
  intros Hcontract Hinit Hrows.
  destruct (@init_shapes _ _ _ _ _ _ _ _ Hcontract Hinit)
    as (_ & _ & _ & _ & [HN _] & _).
  destruct (@init_inv _ _ _ _ _ _ _ _ Hinit)
    as (t & vals & vecs & _ & _ & _ & _ & Hlist & Hdict & _).
  split.
  - intros (fd & Hflow). split; [|split].
    + apply flow_inv in Hflow.
      destruct Hflow as (pass & EB & Hpass & _).
      apply Forall_forall. intros id Hin.
      eapply Forall2_In_l in Hin; [|exact Hpass].
      destruct Hin as (e & _ & i & u & Hi & _).
      rewrite Hdict in Hi. apply node_index_some in Hi.
      rewrite Hlist. eapply nth_error_In. exact Hi.
    + unfold flow in Hflow. apply bind_ok in Hflow.
      destruct Hflow as (d & Hd & _).
      now apply embedding_dataset_threads in Hd.
    + unfold flow in Hflow. apply bind_ok in Hflow.
      destruct Hflow as (d & _ & Hflow).
      destruct tg as [t0|]; apply bind_ok in Hflow;
        destruct Hflow as (b & Hb & _);
        now apply batch_once_range in Hb.
  - intros Hids Hthr Hbs. rewrite Forall_forall in Hids.
    assert (Hthr' : (thr = -1 \/ 1 <= thr < 2 ^ 63)%Z).
    { assert (H31 : (2 ^ 31 < 2 ^ 63)%Z) by reflexivity. lia. }
    destruct (mapM_total
                (fun id => match lookup (node_index_dict gen) id with
                           | Some i => Ok i
                           | None => Err none_to_int64
                           end) ids) as (idx & Hidx).
    { intros id Hin. rewrite Hdict.
      destruct (node_index_in _ _ (eq_ind _ (fun l => In id l)
                                     (Hids id Hin) _ Hlist)) as (i & ->).
      now exists i. }
    destruct (mapM_total
                (fun i => match nth_error (eigen_vecs gen) i with
                          | Some r => Ok r
                          | None => Err (Raise IndexError
                                      "index is out of bounds for axis 0")
                          end) idx) as (rows & Hrows').
    { intros i Hin. apply mapM_Forall2 in Hidx.
      eapply Forall2_In_r in Hin; [|exact Hidx].
      destruct Hin as (id & _ & Hget).
      destruct (lookup (node_index_dict gen) id) as [i'|] eqn:Hi;
        [|discriminate].
      injection Hget as ->. rewrite Hdict in Hi.
      apply node_index_some in Hi.
      assert (Hlt : (i < length (eigen_vecs gen))%nat).
      { rewrite HN. apply Nat.lt_le_trans with (length (node_list gen));
          [|exact Hrows].
        rewrite Hlist. apply nth_error_Some. congruence. }
      apply nth_error_Some in Hlt.
      destruct (nth_error (eigen_vecs gen) i) as [r|]; [|contradiction].
      now exists r. }
    unfold flow, embedding_dataset, _node_lookup, vectorize_get_int64,
      Np.take_rows.
    rewrite Hidx. cbn [bind]. rewrite Hrows'. cbn [bind].
    rewrite (map_parallel_ok _ _ Hthr'). cbn [bind].
    rewrite (map_parallel_ok _ _ Hthr'). cbn [bind].
    cbn [Dataset.from_tensor_slices Dataset.map Dataset.zip Dataset.cache].
    destruct tg as [t0|]; rewrite (batch_ok _ Hbs); cbn [bind];
      destruct rep; eexists; reflexivity.
Qed.

(** *** The wavelet coefficients *)

(** Entry [(r, c)] of the samples of the node at row [i]: the sum over the
    eigenpairs of [U[r][j] * exp(- scale_c * lambda_j) * U[i][j]]. *)
Lemma samples_entry (G : StellarGraph node) (sc : scales_arg) (ns nev : Z)
    (gen : GraphWaveGenerator node) (i : nat) (u : list R) (r c : nat) :
  eigs_contract eigs ->
  init G sc ns nev = Ok gen ->
  nth_error (eigen_vecs gen) i = Some u ->
  (r < length (eigen_vecs gen))%nat -> (c < length (scales gen))%nat ->
  entry (Tf.einsum_ijk_j_ik (Ues gen) u) r c =
  Np.sum (map (fun j => entry (eigen_vecs gen) r j *
                        exp (- nth c (scales gen) 0 * nth j (eigen_vals gen) 0) *
                        entry (eigen_vecs gen) i j)
              (seq 0 (length (eigen_vals gen)))).
Proof.
  intros Hcontract Hinit Hu Hr Hc.
  destruct (@init_shapes _ _ _ _ _ _ _ _ Hcontract Hinit)
    as (_ & Hk & _ & _ & HU & HT & Hent).
  pose proof HU as [HN HUrows]. rewrite HN in Hr.
  rewrite (einsum_entry u HT Hk Hr Hc).
  assert (HM : shape2 (length (eigen_vals gen)) (length (scales gen))
                      (nth r (Ues gen) [])).
  { destruct HT as [HTlen HT]. rewrite Forall_forall in HT.
    apply HT, nth_In. lia. }
  assert (Hulen : length u = length (eigen_vals gen)).
  { rewrite Forall_forall in HUrows. apply HUrows.
    eapply nth_error_In. exact Hu. }
  assert (Hcol : length (Np.column c (nth r (Ues gen) [])) = length u).
  { unfold Np.column. rewrite length_map. destruct HM as [-> _].
    now rewrite Hulen. }
  rewrite (inner_as_sum _ _ Hcol). rewrite Hcol, Hulen.
  f_equal. apply map_ext_in. intros j Hj. apply in_seq in Hj.
  assert (Hjk : (j < length (eigen_vals gen))%nat) by lia.
  unfold Np.column.
  rewrite (nth_map_lt _ _ [] 0)
    by (destruct HM as [-> _]; exact Hjk).
  change (nth c (nth j (nth r (Ues gen) []) []) 0)
    with (entry3 (Ues gen) r j c).
  rewrite (Hent r j c Hr Hjk Hc).
  unfold entry at 3. now rewrite (nth_error_nth _ _ [] Hu).
Qed.

(** X7.  The samples handed to the characteristic function sampler for the
    node at row [i] are column [i] of [U exp(- scale * Lambda) U^T], scale by
    scale, computed without forming that matrix: the sample at row [r] and
    scale [c] is the sum over the eigenpairs of
    [U[r][j] * exp(- scale_c * lambda_j) * U[i][j]]. *)
Theorem wavelet_samples_are_columns (G : StellarGraph node) (sc : scales_arg)
    (ns nev : Z) (gen : GraphWaveGenerator node) (i : nat) (u : list R)
    (r c : nat) :
  eigs_contract eigs ->
  init G sc ns nev = Ok gen ->
  nth_error (eigen_vecs gen) i = Some u ->
  (r < length (eigen_vecs gen))%nat -> (c < length (scales gen))%nat ->
  entry (Tf.einsum_ijk_j_ik (Ues gen) u) r c =
  Np.sum (map (fun j => entry (eigen_vecs gen) r j *
                        exp (- nth c (scales gen) 0 * nth j (eigen_vals gen) 0) *
                        entry (eigen_vecs gen) i j)
              (seq 0 (length (eigen_vals gen)))).
Proof. apply samples_entry. Qed.

(** X8.  The wavelet coefficients are symmetric in the two nodes: at every
    scale, the sample of node [a] at row [b] equals the sample of node [b] at
    row [a]. *)
Theorem wavelet_samples_symmetric (G : StellarGraph node) (sc : scales_arg)
    (ns nev : Z) (gen : GraphWaveGenerator node) (a b : nat)
    (ua ub : list R) (c : nat) :
  eigs_contract eigs ->
  init G sc ns nev = Ok gen ->
  nth_error (eigen_vecs gen) a = Some ua ->
  nth_error (eigen_vecs gen) b = Some ub ->
  (c < length (scales gen))%nat ->
  entry (Tf.einsum_ijk_j_ik (Ues gen) ua) b c =
  entry (Tf.einsum_ijk_j_ik (Ues gen) ub) a c.
Proof.
  intros Hcontract Hinit Ha Hb Hc.
  assert (Hal : (a < length (eigen_vecs gen))%nat)
    by (apply nth_error_Some; congruence).
  assert (Hbl : (b < length (eigen_vecs gen))%nat)
    by (apply nth_error_Some; congruence).
  rewrite (@samples_entry G sc ns nev gen a ua b c Hcontract Hinit Ha Hbl Hc).
  rewrite (@samples_entry G sc ns nev gen b ub a c Hcontract Hinit Hb Hal Hc).
  f_equal. apply map_ext. intros j. ring.
Qed.

(** *** Automatic scales *)

(** X9.  The scales selected automatically are strictly positive and
    strictly increasing. *)
Theorem auto_scales_positive_increasing (G : StellarGraph node) (ns nev : Z)
    (gen : GraphWaveGenerator node) :
  init G Auto ns nev = Ok gen ->
  (forall i, (i < length (scales gen))%nat -> 0 < nth i (scales gen) 0) /\
  (forall i j, (i < j)%nat -> (j < length (scales gen))%nat ->
     nth i (scales gen) 0 < nth j (scales gen) 0).
Proof.
  intros Hinit.
  destruct (@init_inv _ _ _ _ _ _ _ _ Hinit)
    as (t & vals & vecs & _ & _ & Hsel & _).
  apply auto_scales_spec in Hsel.
  destruct Hsel as (e2 & eN & (Hin2 & Hpos2 & _) & (_ & HleN) & _ & Hlen & Hnth).
  assert (Hs : 0 < sqrt (eN * e2)).
  { apply sqrt_lt_R0. pose proof (HleN _ Hin2). nra. }
  assert (Hinv : 0 < / sqrt (eN * e2)) by (now apply Rinv_0_lt_compat).
  assert (H95 : ln 0.95 < 0) by (rewrite <- ln_1; apply ln_increasing; lra).
  assert (H85 : ln 0.85 < ln 0.95) by (apply ln_increasing; lra).
  assert (Ha : 0 < - ln 0.95 / sqrt (eN * e2)) by (unfold Rdiv; nra).
  assert (Hab : - ln 0.95 / sqrt (eN * e2) < - ln 0.85 / sqrt (eN * e2))
    by (unfold Rdiv; nra).
  rewrite Hlen. revert Hnth Ha Hab.
  generalize (- ln 0.95 / sqrt (eN * e2)) (- ln 0.85 / sqrt (eN * e2)).
  generalize (Z.to_nat ns). clear. intros n lo hi Hnth Hlo Hlohi.
  assert (Hstep : (2 <= n)%nat -> 0 < (hi - lo) / INR (n - 1)).
  { intros Hn. apply Rdiv_lt_0_compat; [lra|]. apply lt_0_INR. lia. }
  split.
  - intros i Hi. rewrite Hnth by exact Hi.
    destruct (Nat.le_gt_cases 2 n) as [Hn|Hn].
    + pose proof (Hstep Hn). pose proof (pos_INR i). nra.
    + assert (i = 0%nat) by lia. subst i. simpl INR. lra.
  - intros i j Hij Hj. rewrite !Hnth by lia.
    assert (Hn : (2 <= n)%nat) by lia. pose proof (Hstep Hn).
    pose proof (lt_INR _ _ Hij). nra.
Qed.

(** *** Batches, targets and repetition *)

Lemma embeds_functional (self : GraphWaveGenerator node) (ts : list R)
    (id : node) (e1 e2 : list R) :
  embeds self ts id e1 -> embeds self ts id e2 -> e1 = e2.
Proof.
  intros (i1 & u1 & Hi1 & Hu1 & ->) (i2 & u2 & Hi2 & Hu2 & ->).
  rewrite Hi1 in Hi2. injection Hi2 as <-.
  rewrite Hu1 in Hu2. now injection Hu2 as <-.
Qed.

Lemma pass_unique (self : GraphWaveGenerator node) (ts : list R)
    (ids : list node) (p1 p2 : list (list R)) :
  Forall2 (embeds self ts) ids p1 -> Forall2 (embeds self ts) ids p2 ->
  p1 = p2.
Proof.
  intros H1. revert p2. induction H1 as [|id e ids p1 He _ IH]; intros p2 H2;
    inversion H2; subst; [reflexivity|].
  f_equal; [eapply embeds_functional; eassumption | now apply IH].
Qed.

(** What can be pulled from a dataset returned by [flow], in terms of the
    embeddings of one pass. *)
Lemma pull_of_flow {T : Type} (self : GraphWaveGenerator node)
    (ids : list node) (ts : list R) (bs : Z) (tg : option (list T))
    (rep : bool) (thr : Z) (fd : flow_dataset T) :
  stream self ids ts bs tg rep thr = Ok fd ->
  exists pass,
    Forall2 (embeds self ts) ids pass /\
    forall n,
      pull n fd =
      let one := match tg with
                 | None => pass
                 | Some t => firstn (length t) pass
                 end in
      if rep then Dataset.cycle n one else firstn n one.
Proof.
  intros Hflow. apply flow_inv in Hflow.
  destruct Hflow as (pass & EB & Hpass & _ & Hne & Hcat & Hfd).
  exists pass. split; [exact Hpass|]. intros n. cbv zeta.
  unfold pull. rewrite Hfd, <- Hcat. destruct rep; cbn [Dataset.take].
  - now apply cycle_batches.
  - now apply firstn_concat_firstn.
Qed.

(** X10.  With targets, every batch pairs as many targets as embeddings, at
    least one and at most [batch_size]; read batch after batch, the pairs
    are exactly [zip(embeddings of node_ids, targets)]: the i-th target goes
    with the embedding of the i-th node id, and the longer of the two
    sequences is cut to the length of the shorter. *)
Theorem targets_are_row_aligned {T : Type} (self : GraphWaveGenerator node)
    (ids : list node) (ts : list R) (bs : Z) (tg : list T) (rep : bool)
    (thr : Z) (fd : flow_dataset T) :
  stream self ids ts bs (Some tg) rep thr = Ok fd ->
  exists pass batches,
    fd = WithTargets (if rep then Dataset.Forever batches
                      else Dataset.Once batches) /\
    Forall2 (embeds self ts) ids pass /\
    Forall (fun b => length (fst b) = length (snd b) /\
                     (1 <= length (fst b) <= Z.to_nat bs)%nat) batches /\
    combine (concat (map fst batches)) (concat (map snd batches)) =
    combine pass tg.
Proof.
  unfold flow. intros H.
  apply bind_ok in H. destruct H as (d & Hd & H).
  apply embedding_dataset_inv in Hd. destruct Hd as (pass & -> & Hpass).
  cbn [Dataset.zip Dataset.from_tensor_slices Dataset.cache] in H.
  apply bind_ok in H. destruct H as (batched & Hb & H).
  apply batch_once_inv in Hb. destruct Hb as (Hbs & ->).
  set (X := Dataset.chunks (Z.to_nat bs) (combine pass tg)) in *.
  exists pass, (map (@split (list R) T) X).
  split; [destruct rep; injection H as <-; reflexivity|].
  split; [exact Hpass|]. split.
  - apply Forall_forall. intros b Hb. apply in_map_iff in Hb.
    destruct Hb as (x & <- & Hx).
    rewrite fst_split_map, snd_split_map, !length_map.
    split; [reflexivity|].
    pose proof (@chunks_nonempty _ (Z.to_nat bs) (combine pass tg)) as Hne.
    pose proof (@chunks_fuel_le _ (Z.to_nat bs) (length (combine pass tg))
                  (combine pass tg)) as Hle.
    rewrite Forall_forall in Hne, Hle.
    specialize (Hle x Hx). specialize (Hne ltac:(lia) x Hx).
    destruct x; [contradiction | simpl in *; lia].
  - rewrite !map_map.
    rewrite (map_ext (fun x => fst (split x)) (map fst))
      by (intros x; apply fst_split_map).
    rewrite (map_ext (fun x => snd (split x)) (map snd))
      by (intros x; apply snd_split_map).
    rewrite <- !concat_map, combine_fst_snd.
    apply chunks_concat. lia.
Qed.

(** X11.  Without targets, batch [j] holds the embeddings of the node ids
    at positions [j * batch_size] up to [(j + 1) * batch_size] (fewer in the
    last batch), and there is a batch [j] exactly when [j * batch_size] is
    below the number of node ids. *)
Theorem batches_are_slices {T : Type} (self : GraphWaveGenerator node)
    (ids : list node) (ts : list R) (bs : Z) (rep : bool) (thr : Z)
    (fd : flow_dataset T) :
  stream self ids ts bs None rep thr = Ok fd ->
  exists pass batches,
    fd = Embeddings (if rep then Dataset.Forever batches
                     else Dataset.Once batches) /\
    Forall2 (embeds self ts) ids pass /\
    (forall j, nth j batches [] =
               firstn (Z.to_nat bs) (skipn (j * Z.to_nat bs) pass)) /\
    (forall j, (j < length batches)%nat <->
               (j * Z.to_nat bs < length ids)%nat).
Proof.
  unfold flow. intros H.
  apply bind_ok in H. destruct H as (d & Hd & H).
  apply embedding_dataset_inv in Hd. destruct Hd as (pass & -> & Hpass).
  cbn [Dataset.cache] in H.
  apply bind_ok in H. destruct H as (batched & Hb & H).
  apply batch_once_inv in Hb. destruct Hb as (Hbs & ->).
  exists pass, (Dataset.chunks (Z.to_nat bs) pass).
  split; [destruct rep; injection H as <-; reflexivity|].
  split; [exact Hpass|].
  rewrite (Forall2_length_eq Hpass). apply chunks_slices. lia.
Qed.

(** X12.  The embeddings that can be pulled from the dataset do not depend
    on [batch_size] nor on [threads]: two calls of [flow] that differ only
    in these yield the same sequence of embeddings. *)
Theorem batching_is_transparent {T : Type} (self : GraphWaveGenerator node)
    (ids : list node) (ts : list R) (bs1 bs2 : Z) (tg : option (list T))
    (rep : bool) (thr1 thr2 : Z) (fd1 fd2 : flow_dataset T) (n : nat) :
  stream self ids ts bs1 tg rep thr1 = Ok fd1 ->
  stream self ids ts bs2 tg rep thr2 = Ok fd2 ->
  pull n fd1 = pull n fd2.
Proof.
  intros H1 H2. apply pull_of_flow in H1, H2.
  destruct H1 as (p1 & Hp1 & Hpull1). destruct H2 as (p2 & Hp2 & Hpull2).
  rewrite Hpull1, Hpull2. now rewrite (pass_unique Hp1 Hp2).
Qed.

(** X13.  [repeat] changes nothing within the first pass: as long as no
    more embeddings are pulled than one pass holds (the number of node ids,
    or the number of targets if there are fewer), the repeating and the
    non-repeating dataset yield the same embeddings. *)
Theorem repeat_agrees_on_first_pass {T : Type}
    (self : GraphWaveGenerator node) (ids : list node) (ts : list R)
    (bs : Z) (tg : option (list T)) (thr : Z)
    (fd_repeat fd_once : flow_dataset T) (n : nat) :
  stream self ids ts bs tg true thr = Ok fd_repeat ->
  stream self ids ts bs tg false thr = Ok fd_once ->
  (n <= match tg with
        | None => length ids
        | Some t => Nat.min (length t) (length ids)
        end)%nat ->
  pull n fd_repeat = pull n fd_once.
Proof.
  intros H1 H2 Hn. apply pull_of_flow in H1, H2.
  destruct H1 as (p1 & Hp1 & Hpull1). destruct H2 as (p2 & Hp2 & Hpull2).
  rewrite Hpull1, Hpull2, (pass_unique Hp1 Hp2). cbv zeta.
  apply cycle_firstn. rewrite (Forall2_length_eq Hp2) in Hn.
  destruct tg as [t|]; [rewrite length_firstn|]; exact Hn.
Qed.
(** X15.  [flow] maps over the node ids: without targets and without
    repetition, the embeddings of the concatenation of two lists of node ids
    are the embeddings of the first list followed by those of the second. *)
Theorem flow_of_concatenated_ids {T : Type} (self : GraphWaveGenerator node)
    (ids1 ids2 : list node) (ts : list R) (bs : Z) (thr : Z)
    (fd1 fd2 fd : flow_dataset T) :
  stream self ids1 ts bs None false thr = Ok fd1 ->
  stream self ids2 ts bs None false thr = Ok fd2 ->
  stream self (ids1 ++ ids2) ts bs None false thr = Ok fd ->
  pull (length (ids1 ++ ids2)) fd =
  pull (length ids1) fd1 ++ pull (length ids2) fd2.
Proof.
  intros H1 H2 H. apply pull_of_flow in H1, H2, H.
  destruct H1 as (p1 & Hp1 & Hpull1). destruct H2 as (p2 & Hp2 & Hpull2).
  destruct H as (p & Hp & Hpull).
  rewrite Hpull1, Hpull2, Hpull. cbv zeta.
  rewrite (pass_unique Hp (Forall2_app Hp1 Hp2)).
  rewrite (Forall2_length_eq Hp1), (Forall2_length_eq Hp2).
  rewrite (Forall2_length_eq (Forall2_app Hp1 Hp2)).
  now rewrite !firstn_all.
Qed.
End GeneratorProperties.

(** ** The further properties on concrete inputs *)

Section MoreInstances.
Local Open Scope R_scope.

Local Abbreviation init4 := (__init__ Nat.eq_dec Demo.cycle4_eigs Demo.cycle4).
Local Abbreviation flow4 := (@flow nat Nat.eq_dec R).

Lemma two_by_two : shape2 2 2 [[1; 2]; [3; 4]].
Proof. split; [reflexivity | repeat constructor]. Qed.

(** Two samples at two scales, sampled at 0 and 5: the cosine response for
    the point 5 and the first scale is entry 2 of the embedding. *)
Lemma embedding_layout_witness :
  nth 2 (_empirical_characteristic_function [[1; 2]; [3; 4]] [0; 5]) 0 =
  Tf.mean (map (fun row => cos (nth 0 row 0 * 5)) [[1; 2]; [3; 4]]) /\
  nth 6 (_empirical_characteristic_function [[1; 2]; [3; 4]] [0; 5]) 0 =
  Tf.mean (map (fun row => sin (nth 0 row 0 * 5)) [[1; 2]; [3; 4]]).
Proof.
  apply (@embedding_layout [[1; 2]; [3; 4]] [0; 5] 2 2 1 0 two_by_two);
    simpl; lia.
Defined.


Lemma embedding_negated_points_witness :
  _empirical_characteristic_function [[1; 2]; [3; 4]] [-0; -5] =
  Tf.flatten (mean_response cos [[1; 2]; [3; 4]] [0; 5]) ++
  map Ropp (Tf.flatten (mean_response sin [[1; 2]; [3; 4]] [0; 5])).
Proof.
  exact (@embedding_negated_points [[1; 2]; [3; 4]] [0; 5] 2 2 two_by_two).
Defined.

(** On the cycle, node 2 is at position 2 of the node list and has index 2. *)
Lemma node_index_mapping_witness :
  exists gen,
    init4 (Explicit [1]) 3 (-1) = Ok gen /\
    dict_get Nat.eq_dec (node_index_dict gen) 2%nat = Some 2%nat.
Proof.
  eexists. split; [reflexivity|].
  refine (proj2 (proj2 (@node_index_mapping nat Nat.eq_dec Demo.cycle4_eigs
                          Demo.cycle4 (Explicit [1]) 3 (-1) _ eq_refl))
            _ 2%nat 2%nat eq_refl).
  repeat constructor; simpl; lia.
Defined.

Lemma flow_success_conditions_witness :
  exists gen,
    init4 (Explicit [1]) 3 (-1) = Ok gen /\
    exists fd, flow4 gen [0; 3]%nat [0; 1] 2 None true 1 = Ok fd.
Proof.
  eexists. split; [reflexivity|].
  refine (proj2 (@flow_success_conditions nat Nat.eq_dec Demo.cycle4_eigs R
                   Demo.cycle4 (Explicit [1]) 3 (-1) _ [0; 3]%nat [0; 1] 2
                   None true 1 cycle4_eigs_contract eq_refl _) _ _ _).
  - change (4 <= 4)%nat. lia.
  - constructor; [simpl; auto 10 | constructor; [simpl; auto 10 | constructor]].
  - right. split; [lia | reflexivity].
  - split; [lia | reflexivity].
Defined.

Lemma wavelet_samples_are_columns_witness :
  exists gen u,
    init4 (Explicit [1]) 3 (-1) = Ok gen /\
    nth_error (eigen_vecs gen) 0 = Some u /\
    entry (Tf.einsum_ijk_j_ik (Ues gen) u) 1 0 =
    Np.sum (map (fun j => entry (eigen_vecs gen) 1 j *
                          exp (- nth 0 (scales gen) 0 *
                               nth j (eigen_vals gen) 0) *
                          entry (eigen_vecs gen) 0 j)
                (seq 0 (length (eigen_vals gen)))).
Proof.
  eexists. eexists. split; [reflexivity|]. split; [reflexivity|].
  refine (@wavelet_samples_are_columns nat Nat.eq_dec Demo.cycle4_eigs
            Demo.cycle4 (Explicit [1]) 3 (-1) _ 0 _ 1 0
            cycle4_eigs_contract eq_refl eq_refl _ _).
  - change (1 < 4)%nat. lia.
  - change (0 < 1)%nat. lia.
Defined.

Lemma wavelet_samples_symmetric_witness :
  exists gen ua ub,
    init4 (Explicit [1]) 3 (-1) = Ok gen /\
    nth_error (eigen_vecs gen) 0 = Some ua /\
    nth_error (eigen_vecs gen) 1 = Some ub /\
    entry (Tf.einsum_ijk_j_ik (Ues gen) ua) 1 0 =
    entry (Tf.einsum_ijk_j_ik (Ues gen) ub) 0 0.
Proof.
  eexists. eexists. eexists.
  split; [reflexivity|]. split; [reflexivity|]. split; [reflexivity|].
  refine (@wavelet_samples_symmetric nat Nat.eq_dec Demo.cycle4_eigs
            Demo.cycle4 (Explicit [1]) 3 (-1) _ 0 1 _ _ 0
            cycle4_eigs_contract eq_refl eq_refl eq_refl _).
  change (0 < 1)%nat. lia.
Defined.

Lemma auto_scales_positive_increasing_witness :
  exists gen,
    init4 Auto 3 (-1) = Ok gen /\
    0 < nth 0 (scales gen) 0 /\
    nth 0 (scales gen) 0 < nth 2 (scales gen) 0.
Proof.
  destruct (@cycle4_auto 3) as (gen & Hgen); [lia|].
  exists gen. split; [exact Hgen|].
  assert (Hlen : length (scales gen) = 3%nat).
  { destruct (@init_inv _ _ _ _ _ _ _ _ Hgen)
      as (t & vals & vecs & _ & _ & Hsel & _).
    apply auto_scales_spec in Hsel.
    now destruct Hsel as (_ & _ & _ & _ & _ & Hlen & _). }
  destruct (@auto_scales_positive_increasing nat Nat.eq_dec
              Demo.cycle4_eigs Demo.cycle4 3 (-1) gen Hgen) as [Hpos Hinc].
  split; [apply Hpos | apply Hinc]; rewrite ?Hlen; lia.
Defined.

(** Three nodes of the cycle with the targets 10, 20, 30, in batches of
    two. *)
Lemma targets_are_row_aligned_witness :
  exists gen,
    init4 (Explicit [1]) 3 (-1) = Ok gen /\
    exists fd pass batches,
      flow4 gen [0; 1; 2]%nat [0; 1] 2 (Some [10; 20; 30]) false 1 = Ok fd /\
      fd = WithTargets (Dataset.Once batches) /\
      combine (concat (map fst batches)) (concat (map snd batches)) =
      combine pass [10; 20; 30].
Proof.
  eexists. split; [reflexivity|].
  lazymatch goal with
  | |- context [@flow nat Nat.eq_dec R ?g _ _ _ _ _ _] =>
      destruct (@targets_are_row_aligned nat Nat.eq_dec R g [0; 1; 2]%nat
                  [0; 1] 2 [10; 20; 30] false 1 _ eq_refl)
        as (pass & batches & Hfd & _ & _ & Hzip)
  end.
  eexists. exists pass, batches. split; [reflexivity|]. split; assumption.
Defined.

Lemma batches_are_slices_witness :
  exists gen,
    init4 (Explicit [1]) 3 (-1) = Ok gen /\
    exists fd pass batches,
      flow4 gen [0; 1; 2]%nat [0; 1] 2 None false 1 = Ok fd /\
      fd = Embeddings (Dataset.Once batches) /\
      nth 1 batches [] = firstn 2 (skipn 2 pass) /\
      length batches = 2%nat.
Proof.
  eexists. split; [reflexivity|].
  lazymatch goal with
  | |- context [@flow nat Nat.eq_dec R ?g _ _ _ _ _ _] =>
      destruct (@batches_are_slices nat Nat.eq_dec R g [0; 1; 2]%nat
                  [0; 1] 2 false 1 _ eq_refl)
        as (pass & batches & Hfd & _ & Hnth & Hcount)
  end.
  eexists. exists pass, batches. split; [reflexivity|]. split; [exact Hfd|].
  split; [exact (Hnth 1%nat)|].
  pose proof (proj2 (Hcount 1%nat)) as H1.
  pose proof (proj1 (Hcount 2%nat)) as H2.
  simpl in H1, H2. lia.
Defined.

Lemma batching_is_transparent_witness :
  exists gen,
    init4 (Explicit [1]) 3 (-1) = Ok gen /\
    exists fd1 fd2,
      flow4 gen [0; 1; 2]%nat [0; 1] 1 None true 1 = Ok fd1 /\
      flow4 gen [0; 1; 2]%nat [0; 1] 3 None true 4 = Ok fd2 /\
      pull 5 fd1 = pull 5 fd2.
Proof.
  eexists. split; [reflexivity|].
  lazymatch goal with
  | |- context [@flow nat Nat.eq_dec R ?g _ _ _ _ _ _] =>
      eexists; eexists; split; [reflexivity|]; split; [reflexivity|];
      lazymatch goal with
      | |- pull _ ?f1 = pull _ ?f2 =>
          exact (@batching_is_transparent nat Nat.eq_dec R g [0; 1; 2]%nat
                   [0; 1] 1 3 None true 1 4 f1 f2 5 eq_refl eq_refl)
      end
  end.
Defined.

Lemma repeat_agrees_on_first_pass_witness :
  exists gen,
    init4 (Explicit [1]) 3 (-1) = Ok gen /\
    exists fd1 fd2,
      flow4 gen [0; 1; 2]%nat [0; 1] 2 None true 1 = Ok fd1 /\
      flow4 gen [0; 1; 2]%nat [0; 1] 2 None false 1 = Ok fd2 /\
      pull 3 fd1 = pull 3 fd2.
Proof.
  eexists. split; [reflexivity|].
  lazymatch goal with
  | |- context [@flow nat Nat.eq_dec R ?g _ _ _ _ _ _] =>
      eexists; eexists; split; [reflexivity|]; split; [reflexivity|];
      lazymatch goal with
      | |- pull _ ?f1 = pull _ ?f2 =>
          refine (@repeat_agrees_on_first_pass nat Nat.eq_dec R g
                    [0; 1; 2]%nat [0; 1] 2 None 1 f1 f2 3 eq_refl eq_refl _)
      end
  end.
  simpl. lia.
Defined.
Lemma embedding_ignores_sample_order_witness :
  _empirical_characteristic_function [[1; 2]; [3; 4]] [0; 5] =
  _empirical_characteristic_function [[3; 4]; [1; 2]] [0; 5].
Proof.
  apply (@embedding_ignores_sample_order [[1; 2]; [3; 4]] [[3; 4]; [1; 2]]
           [0; 5] 2 2 two_by_two).
  apply perm_swap.
Defined.

Lemma flow_of_concatenated_ids_witness :
  exists gen,
    init4 (Explicit [1]) 3 (-1) = Ok gen /\
    exists fd1 fd2 fd,
      flow4 gen [0; 1]%nat [0; 1] 2 None false 1 = Ok fd1 /\
      flow4 gen [3]%nat [0; 1] 2 None false 1 = Ok fd2 /\
      flow4 gen [0; 1; 3]%nat [0; 1] 2 None false 1 = Ok fd /\
      pull 3 fd = pull 2 fd1 ++ pull 1 fd2.
Proof.
  eexists. split; [reflexivity|].
  lazymatch goal with
  | |- context [@flow nat Nat.eq_dec R ?g _ _ _ _ _ _] =>
      eexists; eexists; eexists;
      split; [reflexivity|]; split; [reflexivity|]; split; [reflexivity|];
      lazymatch goal with
      | |- pull _ ?f = pull _ ?f1 ++ pull _ ?f2 =>
          exact (@flow_of_concatenated_ids nat Nat.eq_dec R g [0; 1]%nat
                   [3]%nat [0; 1] 2 1 f1 f2 f eq_refl eq_refl eq_refl)
      end
  end.
Defined.
End MoreInstances.
